(** * timetracker: the interval-accounting model of [index.js]

    A shallow embedding of the model classes of [src/index.js]
    ([Interval], [Task], [Model], [EventBus]), of [formatDuration] and of the
    array logic of the view ([TaskTableEl], [View]; the DOM is left out),
    followed by the properties of the specification checked against it and
    by further properties of the code.

    Conventions of the embedding.
    - A JavaScript number that the program handles is an integer (an id,
      a count of milliseconds), modelled as [Z]; [number] adds [NaN], the
      one non-integer the arithmetic of the model classes can produce.
      Sums, differences and the increments of the id counter are exact on
      [Z]; in the program they are so for safe integers (magnitude below
      2^53), and the properties that depend on it say so.  The divisions of
      [formatDuration] are rounded to 53 significant bits, as the program's
      are.
    - A property that may be absent ([startMs], [endMs]) is an [option Z]:
      [None] is [undefined].
    - [Date.now()] is an input: every method that reads the clock takes the
      reading as its argument [now].
    - The global counter [gid], the objects allocated so far and
      [localStorage] are threaded explicitly ([World]).
    - An exception is a result: [Throw e]. *)

From Stdlib Require Import ZArith Ascii DecimalString DecimalPos DecimalZ DecimalFacts Lia.
From stdpp Require Import base list gmap strings.

Open Scope Z_scope.

(** ** JavaScript primitives used by the program *)

Inductive error := TypeError | SyntaxError.

Inductive exn (A : Type) :=
| Return (a : A)
| Throw (e : error).
Arguments Return {A} a.
Arguments Throw {A} e.

(** Sequencing: a thrown exception skips the rest (stdpp's [x ← m; k]). *)
#[global] Instance exn_bind : MBind exn := λ A B k m,
  match m with
  | Return a => k a
  | Throw e => Throw e
  end.

Inductive number :=
| NaN
| Num (z : Z).

(** [ToNumber] of a property that holds an integer or is [undefined]. *)
Definition ToNumber (v : option Z) : number :=
  match v with
  | Some z => Num z
  | None => NaN
  end.

Definition number_add (a b : number) : number :=
  match a, b with
  | Num x, Num y => Num (x + y)
  | _, _ => NaN
  end.

Definition number_sub (a b : number) : number :=
  match a, b with
  | Num x, Num y => Num (x - y)
  | _, _ => NaN
  end.

(** [ToBoolean]: [undefined] and [0] are falsy, every other integer is truthy. *)
Definition truthy (v : option Z) : bool :=
  match v with
  | Some z => negb (z =? 0)
  | None => false
  end.

(** [a || b] on such properties; [b] is the clock reading in the program. *)
Definition or_else (a : option Z) (b : Z) : option Z :=
  if truthy a then a else Some b.

(** [String(n)] and the implicit conversion of [n] in ['...' + n], for an
    integer of magnitude below 10^21 (from there on the program prints an
    exponent). *)
Definition String_of_Z (z : Z) : string :=
  NilZero.string_of_int (Z.to_int z).

(** [x % y] is exact and takes the sign of [x]: it is [Z.rem]. *)
Definition js_mod (x y : Z) : Z := Z.rem x y.

(** Round to nearest, ties to even: the integer nearest to [p / q], [q > 0]. *)
Definition round_half_even (p q : Z) : Z :=
  let f := p / q in
  let r := p mod q in
  if 2 * r <? q then f
  else if q <? 2 * r then f + 1
  else if Z.even f then f else f + 1.

(** The number an integer denotes in the program: the nearest double (53
    significant bits), itself an integer.  Magnitudes stay below 2^1024. *)
Definition to_double (z : Z) : Z :=
  let a := Z.abs z in
  if a <? 2 ^ 53 then z
  else
    let sh := Z.log2 a - 52 in
    Z.sgn z * (round_half_even a (2 ^ sh) * 2 ^ sh).

(** [Math.floor(a / b)] for integer-valued doubles [a] and [b], [b > 0]: the
    quotient is first rounded to the nearest double, [n / 2 ^ sh] with [n] of
    53 bits, and that double is floored. *)
Definition floor_div (a b : Z) : Z :=
  if a =? 0 then 0
  else
    let x := Z.abs a in
    let e := if b <=? x then Z.log2 (x / b) else - Z.log2_up ((b + x - 1) / x) in
    let sh := 52 - e in
    let n :=
      if 0 <=? sh then round_half_even (x * 2 ^ sh) b
      else round_half_even x (b * 2 ^ (- sh)) in
    let n := Z.sgn a * n in
    if 0 <=? sh then n / 2 ^ sh else n * 2 ^ (- sh).

(** The members a plain object [{}] inherits from [Object.prototype]: a
    lookup under one of these keys finds the member, not [undefined]. *)
Definition Object_prototype : list string :=
  ["constructor"; "__defineGetter__"; "__defineSetter__"; "hasOwnProperty";
   "__lookupGetter__"; "__lookupSetter__"; "isPrototypeOf";
   "propertyIsEnumerable"; "toString"; "valueOf"; "__proto__";
   "toLocaleString"].

Definition inherited (key : string) : bool :=
  bool_decide (key ∈ Object_prototype).

(** [l.indexOf(x)]: the index of the first element strictly equal to [x], or -1. *)
Fixpoint indexOf `{EqDecision A} (x : A) (l : list A) : Z :=
  match l with
  | [] => -1
  | y :: l' =>
      if decide (y = x) then 0
      else let i := indexOf x l' in if i <? 0 then -1 else i + 1
  end.

(** [l.splice(start, deleteCount)]: the array that remains.  A negative
    [start] counts from the end, and both arguments are clamped. *)
Definition splice {A} (start deleteCount : Z) (l : list A) : list A :=
  let len := Z.of_nat (length l) in
  let actualStart :=
    if start <? 0 then Z.max (len + start) 0 else Z.min start len in
  let actualDeleteCount := Z.min (Z.max deleteCount 0) (len - actualStart) in
  take (Z.to_nat actualStart) l
    ++ drop (Z.to_nat (actualStart + actualDeleteCount)) l.

(** [l.findIndex(p)]: the index of the first element that satisfies [p], or -1. *)
Fixpoint findIndex {A} (p : A → bool) (l : list A) : Z :=
  match l with
  | [] => -1
  | y :: l' =>
      if p y then 0
      else let i := findIndex p l' in if i <? 0 then -1 else i + 1
  end.

(** [l[i]] for an integer [i]: [undefined] ([None]) outside the array. *)
Definition at_index {A} (i : Z) (l : list A) : option A :=
  if i <? 0 then None else l !! Z.to_nat i.

(** ** [formatDuration] *)

(** The argument is a number of the program: the double that the integer
    denotes.  The three divisions are the program's, rounded and floored;
    [%] and the comparisons are exact.  The hours are printed by
    [String_of_Z], as the program prints them below 10^21 hours. *)
Definition formatDuration (durationMs : Z) : string :=
  let durationMs := to_double durationMs in
  let s := floor_div durationMs 1000 in
  let m := floor_div s 60 in
  let h := floor_div m 60 in
  let s := js_mod s 60 in
  let m := js_mod m 60 in
  let s := if s <? 10 then "0" +:+ String_of_Z s else String_of_Z s in
  let m := if m <? 10 then "0" +:+ String_of_Z m else String_of_Z m in
  String_of_Z h +:+ ":" +:+ m +:+ ":" +:+ s.

(** ** The persisted document ([SerializedInterval], [SerializedTask],
       [SerializedModel] of the source's typedefs) *)

Module SerializedInterval.
Record t := mk { startMs : option Z; endMs : option Z }.
End SerializedInterval.

Module SerializedTask.
Record t := mk {
  id : Z;
  name : string;
  intervals : list SerializedInterval.t;
  status : string
}.
End SerializedTask.

Module SerializedModel.
Record t := mk { tasks : list SerializedTask.t }.
End SerializedModel.

(** ** [class Interval] *)

Module Interval.
Record t := mk { startMs : option Z; endMs : option Z }.

(** The constructor names both properties and assigns neither. *)
Definition new : t := {| startMs := None; endMs := None |}.

Definition start (now : Z) (this : t) : t :=
  {| startMs := Some now; endMs := endMs this |}.

Definition stop (now : Z) (this : t) : t :=
  {| startMs := startMs this; endMs := Some now |}.

Definition elapsed (now : Z) (this : t) : number :=
  let endMs := or_else (endMs this) now in
  number_sub (ToNumber endMs) (ToNumber (startMs this)).

Definition serialize (this : t) : SerializedInterval.t :=
  {| SerializedInterval.startMs := startMs this;
     SerializedInterval.endMs := endMs this |}.

Definition deserialize (serialized : SerializedInterval.t) (this : t) : t :=
  {| startMs := SerializedInterval.startMs serialized;
     endMs := SerializedInterval.endMs serialized |}.
End Interval.

(** ** [class TaskStatus] *)

Module TaskStatus.
Definition RUNNING : string := "RUNNING".
Definition PAUSED : string := "PAUSED".
End TaskStatus.

(** ** [class Task] *)

Module Task.
Record t := mk {
  id : Z;
  name : string;
  intervals : list Interval.t;
  status : string
}.

(** [new Task()]: reads and increments the global counter [gid].  ([gid++]
    is [gid + 1] for a safe integer; from 2^53 on the program's counter no
    longer moves.) *)
Definition new (gid : Z) : t * Z :=
  ({| id := gid;
      name := "Task " +:+ String_of_Z gid;
      intervals := [];
      status := TaskStatus.PAUSED |},
   gid + 1).

Definition run (now : Z) (this : t) : t :=
  let interval := Interval.new in
  {| id := id this;
     name := name this;
     intervals := intervals this ++ [Interval.start now interval];
     status := TaskStatus.RUNNING |}.

(** [this.intervals[this.intervals.length - 1]] is [undefined] on an empty
    array, and calling [stop] on it throws a TypeError before the status
    is assigned.  Otherwise the last interval is stopped in place.  (On the
    empty array the index is -1 in the source and 0 here: no element is
    found at either.) *)
Definition pause (now : Z) (this : t) : exn t :=
  let i := (length (intervals this) - 1)%nat in
  match intervals this !! i with
  | None => Throw TypeError
  | Some interval =>
      Return {| id := id this;
                name := name this;
                intervals := <[i := Interval.stop now interval]> (intervals this);
                status := TaskStatus.PAUSED |}
  end.

Definition toggle (now : Z) (this : t) : exn t :=
  if decide (status this = TaskStatus.PAUSED) then Return (run now this)
  else if decide (status this = TaskStatus.RUNNING) then pause now this
  else Return this.

(** [map] then [reduce((p, c) => p + c, 0)]; every interval that reads the
    clock reads [now]. *)
Definition elapsed (now : Z) (this : t) : number :=
  foldl (λ p c, number_add p c) (Num 0)
        (map (λ interval, Interval.elapsed now interval) (intervals this)).

Definition serialize (this : t) : SerializedTask.t :=
  {| SerializedTask.id := id this;
     SerializedTask.name := name this;
     SerializedTask.intervals :=
       map (λ interval, Interval.serialize interval) (intervals this);
     SerializedTask.status := status this |}.

(** The properties are copied, each interval of the document is pushed, and
    the last statement [gid = this.id++] stores the id in the global counter
    and increments the task's own id (exactly, for a safe integer).  The
    counter on entry is not read. *)
Definition deserialize (serialized : SerializedTask.t) (this : t) (gid : Z)
  : t * Z :=
  let id0 := SerializedTask.id serialized in
  let name0 := SerializedTask.name serialized in
  let intervals0 :=
    intervals this
      ++ map (λ serializedInterval,
                let interval := Interval.new in
                Interval.deserialize serializedInterval interval)
             (SerializedTask.intervals serialized) in
  let status0 := SerializedTask.status serialized in
  ({| id := id0 + 1; name := name0; intervals := intervals0; status := status0 |},
   id0).

(** A call of [run], [pause] or [toggle], with the clock reading it sees. *)
Inductive call := Run (now : Z) | Pause (now : Z) | Toggle (now : Z).

Definition time_of (c : call) : Z :=
  match c with Run now | Pause now | Toggle now => now end.

Definition perform (c : call) (this : t) : exn t :=
  match c with
  | Run now => Return (run now this)
  | Pause now => pause now this
  | Toggle now => toggle now this
  end.

(** A sequence of calls on one task; an exception ends it. *)
Fixpoint perform_all (cs : list call) (this : t) : exn t :=
  match cs with
  | [] => Return this
  | c :: cs' => this' ← perform c this; perform_all cs' this'
  end.
End Task.

(** ** The page's state outside the model objects *)

(** A [Task] object is known by its reference: the position at which it was
    allocated.  [indexOf] on the model's array compares references. *)
Definition ref := nat.

Record World := mkWorld {
  gid : Z;
  heap : list Task.t;
  localStorage : gmap string string
}.

(** ** [class EventBus] *)

Module EventBus.
Section bus.
(** [S] is the state the listeners' closures capture and mutate, [D] the
    event's payload. *)
Context {S D : Type}.

Definition Listener := D → S → exn S.

Record t := mk { listeners : gmap string (list Listener) }.

Definition new : t := {| listeners := ∅ |}.

(** [this.listeners] is a plain object, here the map of its own properties.
    Under a key that names a member of [Object.prototype] the lookup finds
    that member: it is truthy and has no [push], so the call throws. *)
Definition addListener (eventType : string) (listener : Listener) (this : t)
  : exn t :=
  if inherited eventType then Throw TypeError
  else
    match listeners this !! eventType with
    | Some ls =>
        Return {| listeners := <[eventType := ls ++ [listener]]> (listeners this) |}
    | None =>
        Return {| listeners := <[eventType := [] ++ [listener]]> (listeners this) |}
    end.

Fixpoint forEach (ls : list Listener) (data : D) (s : S) : exn S :=
  match ls with
  | [] => Return s
  | listener :: ls' => s' ← listener data s; forEach ls' data s'
  end.

(** Likewise an inherited member is truthy and has no [forEach]. *)
Definition fireEvent (eventType : string) (data : D) (this : t) (s : S) : exn S :=
  if inherited eventType then Throw TypeError
  else
    match listeners this !! eventType with
    | Some ls => forEach ls data s
    | None => Return s
    end.
End bus.
Arguments t : clear implicits.
Arguments Listener : clear implicits.
End EventBus.

(** ** [class Model] *)

Module Model.
Record t := mk { tasks : list ref }.

(** The listener the constructor registers for ['delete_task']. *)
Definition on_delete_task (task : ref) (this : t) : exn t :=
  Return {| tasks := splice (indexOf task (tasks this)) 1 (tasks this) |}.

Definition addTask (this : t) (w : World) : ref * t * World :=
  let '(task, g) := Task.new (gid w) in
  let r := length (heap w) in
  (r,
   {| tasks := tasks this ++ [r] |},
   {| gid := g; heap := heap w ++ [task]; localStorage := localStorage w |}).

(** The body of the [forEach] of [deserialize], for one task of the document. *)
Definition deserialize_task (acc : t * World) (serializedTask : SerializedTask.t)
  : t * World :=
  let '(this, w) := acc in
  let '(task, g) := Task.new (gid w) in
  let '(task, g) := Task.deserialize serializedTask task g in
  let r := length (heap w) in
  ({| tasks := tasks this ++ [r] |},
   {| gid := g; heap := heap w ++ [task]; localStorage := localStorage w |}).

Definition deserialize (serialized : SerializedModel.t) (this : t) (w : World)
  : t * World :=
  foldl deserialize_task (this, w) (SerializedModel.tasks serialized).

Section load.
(** [JSON.parse], the engine's: it throws a SyntaxError on a text that is
    not JSON and returns the document otherwise.  Documents outside the
    [SerializedModel] typedef are outside the model. *)
Variable JSON_parse : string → exn SerializedModel.t.

(** [if (serialized)]: [null] (no item) and the empty string are falsy. *)
Definition load (this : t) (w : World) : exn (t * World) :=
  match localStorage w !! "timetracker" with
  | Some serialized =>
      if decide (serialized = "") then Return (this, w)
      else doc ← JSON_parse serialized; Return (deserialize doc this w)
  | None => Return (this, w)
  end.

(** [new Model()], given the page's event bus. *)
Definition new (bus : EventBus.t t ref) (w : World)
  : exn (t * World * EventBus.t t ref) :=
  let this := {| tasks := [] |} in
  '(this, w) ← load this w;
  bus ← EventBus.addListener "delete_task" on_delete_task bus;
  Return (this, w, bus).
End load.

(** [this.tasks.map(task => task.serialize())].  The array holds objects,
    so every reference in it is allocated; a reference that is not would
    contribute nothing here. *)
Definition serialize (this : t) (w : World) : SerializedModel.t :=
  {| SerializedModel.tasks :=
       omap (λ task, (λ o, Task.serialize o) <$> heap w !! task) (tasks this) |}.

Section persist.
(** [JSON.stringify], the engine's. *)
Variable JSON_stringify : SerializedModel.t → string.

(** [localStorage.setItem('timetracker', ...)], when the storage accepts it. *)
Definition persist (this : t) (w : World) : World :=
  {| gid := gid w;
     heap := heap w;
     localStorage :=
       <["timetracker" := JSON_stringify (serialize this w)]> (localStorage w) |}.
End persist.
End Model.

(** ** [class TaskTableRowEl], [class TaskTableEl], [class View]

    The DOM is not modelled: a row is the task it shows, the table is its
    [rowEls] array, and [removeChild] on a row's own element succeeds. *)

Module TaskTableRowEl.
Record t := mk { task : ref }.

Definition new (task : ref) : t := {| task := task |}.
End TaskTableRowEl.

Module TaskTableEl.
Record t := mk { rowEls : list TaskTableRowEl.t }.

Definition new : t := {| rowEls := [] |}.

(** The listener the constructor registers for ['delete_task']: reading
    [.element] of [this.rowEls[i]] throws a TypeError when no row is found. *)
Definition on_delete_task (task : ref) (this : t) : exn t :=
  let i := findIndex (λ taskEl, bool_decide (TaskTableRowEl.task taskEl = task))
                     (rowEls this) in
  match at_index i (rowEls this) with
  | None => Throw TypeError
  | Some rowEl => Return {| rowEls := splice i 1 (rowEls this) |}
  end.

Definition addTask (task : ref) (this : t) : t :=
  let rowEl := TaskTableRowEl.new task in
  {| rowEls := rowEls this ++ [rowEl] |}.
End TaskTableEl.

Module View.
Record t := mk { model : Model.t; taskTableEl : TaskTableEl.t }.

(** [new View(model)]: one row per task of the model, in the model's order. *)
Definition new (model : Model.t) : t :=
  {| model := model;
     taskTableEl :=
       foldl (λ tbl task, TaskTableEl.addTask task tbl) TaskTableEl.new
             (Model.tasks model) |}.

Definition onAddTaskClick (this : t) (w : World) : t * World :=
  let '(task, m, w') := Model.addTask (model this) w in
  ({| model := m; taskTableEl := TaskTableEl.addTask task (taskTableEl this) |}, w').

(** The two ['delete_task'] listeners, as they act on the page: the model's
    was registered first, by [new Model()], the table's by [new View(model)]. *)
Definition model_listener : EventBus.Listener t ref := λ task this,
  m ← Model.on_delete_task task (model this);
  Return {| model := m; taskTableEl := taskTableEl this |}.

Definition table_listener : EventBus.Listener t ref := λ task this,
  tbl ← TaskTableEl.on_delete_task task (taskTableEl this);
  Return {| model := model this; taskTableEl := tbl |}.

Definition bus : exn (EventBus.t t ref) :=
  bus ← EventBus.addListener "delete_task" model_listener EventBus.new;
  EventBus.addListener "delete_task" table_listener bus.

(** [onDeleteButtonClick] of the row that shows [task]. *)
Definition onDeleteButtonClick (task : ref) (this : t) : exn t :=
  bus ← bus;
  EventBus.fireEvent "delete_task" task bus this.
End View.

(** * Vocabulary of the properties *)

(** The bus as [new Model()] leaves it when it was the first to register. *)
Definition model_bus : EventBus.t Model.t ref :=
  {| EventBus.listeners :=
       <["delete_task" := [] ++ [Model.on_delete_task]]> ∅ |}.

(** The rendering the specification describes: decimal hours, then minutes
    and seconds as two decimal digits each. *)
Definition digit (n : Z) : ascii := ascii_of_nat (48 + Z.to_nat n).

Definition two_digits (n : Z) : string :=
  String (digit (n / 10)) (String (digit (n mod 10)) EmptyString).

Definition render_H_MM_SS (h m s : Z) : string :=
  String_of_Z h +:+ ":" +:+ two_digits m +:+ ":" +:+ two_digits s.

Definition padded (n : Z) : string :=
  if n <? 10 then "0" +:+ String_of_Z n else String_of_Z n.

(** Unpadded: the text is ["0"] or does not begin with the digit 0. *)
Definition unpadded (s : string) : Prop :=
  s = "0" ∨ ∃ c rest, s = String c rest ∧ c ≠ "0"%char.

(** An interval that was started at [s] and stopped at [e] with [s < e]. *)
Definition ends_after_start (iv : Interval.t) : Prop :=
  ∃ s e, Interval.startMs iv = Some s ∧ Interval.endMs iv = Some e ∧ s < e.

Definition closed (iv : Interval.t) : Prop := is_Some (Interval.endMs iv).

(** What a task looks like between toggles: paused with every interval
    closed, or running with every interval closed but the last. *)
Inductive toggled (t : Task.t) : Prop :=
| toggled_paused :
    Task.status t = TaskStatus.PAUSED →
    Forall closed (Task.intervals t) →
    toggled t
| toggled_running l iv :
    Task.status t = TaskStatus.RUNNING →
    Task.intervals t = l ++ [iv] →
    Forall closed l →
    Interval.endMs iv = None →
    toggled t.

(** The duration of a closed interval, and the duration so far of an open
    one, as the specification words them. *)
Definition closed_duration (iv : Interval.t) : Z :=
  match Interval.startMs iv, Interval.endMs iv with
  | Some s, Some e => e - s
  | _, _ => 0
  end.

Definition open_duration (now : Z) (iv : Interval.t) : Z :=
  match Interval.startMs iv, Interval.endMs iv with
  | Some s, None => now - s
  | _, _ => 0
  end.

Definition sumZ (l : list Z) : Z := foldr Z.add 0 l.

(** The closed intervals plus the last interval if it is open. *)
Definition elapsed_closed_and_last_open (now : Z) (t : Task.t) : number :=
  Num (sumZ (closed_duration <$> Task.intervals t)
       + match last (Task.intervals t) with
         | Some iv => open_duration now iv
         | None => 0
         end).

(** The closed intervals plus every open interval. *)
Definition elapsed_closed_and_all_open (now : Z) (t : Task.t) : number :=
  Num (sumZ (closed_duration <$> Task.intervals t)
       + sumZ (open_duration now <$> Task.intervals t)).

Definition has_open (t : Task.t) : bool :=
  existsb (λ iv, bool_decide (Interval.endMs iv = None)) (Task.intervals t).

(** The task after a call; a call that throws leaves it as it was. *)
Definition after (c : Task.call) (t : Task.t) : Task.t :=
  match Task.perform c t with
  | Return t' => t'
  | Throw _ => t
  end.

(** [pause()] is called only on a task that has an open interval. *)
Fixpoint pause_only_when_open (cs : list Task.call) (t : Task.t) : bool :=
  match cs with
  | [] => true
  | c :: cs' =>
      match c with Task.Pause _ => has_open t | _ => true end
      && pause_only_when_open cs' (after c t)
  end.

(** [run()] is called only on a task that is not running. *)
Fixpoint run_only_when_not_running (cs : list Task.call) (t : Task.t) : bool :=
  match cs with
  | [] => true
  | c :: cs' =>
      match c with
      | Task.Run _ => negb (bool_decide (Task.status t = TaskStatus.RUNNING))
      | _ => true
      end
      && run_only_when_not_running cs' (after c t)
  end.

(** A safe integer: one on which the program's [+ 1] is exact. *)
Definition safe_integer (z : Z) : Prop := - 2 ^ 53 < z < 2 ^ 53.

(** What [run] and [pause] keep true of a task when the clock never reads 0:
    every interval has a start, no [endMs] is 0, and a running task has an
    interval. *)
Definition timed (iv : Interval.t) : Prop :=
  is_Some (Interval.startMs iv) ∧ Interval.endMs iv ≠ Some 0.

Record clocked (t : Task.t) : Prop := {
  clocked_intervals : Forall timed (Task.intervals t);
  clocked_running : Task.status t = TaskStatus.RUNNING → Task.intervals t ≠ []
}.

(** [a ≤ b] on numbers; [NaN] compares with nothing. *)
Definition number_le (a b : number) : Prop :=
  match a, b with
  | Num x, Num y => x ≤ y
  | _, _ => False
  end.

(** The toggles a task has gone through, read off its intervals and status. *)
Definition toggles_done (t : Task.t) : Z :=
  2 * Z.of_nat (length (Task.intervals t))
  - (if decide (Task.status t = TaskStatus.RUNNING) then 1 else 0).

(** The clock readings of the calls never go back, starting from [b]. *)
Fixpoint clock_nondecreasing (b : Z) (cs : list Task.call) : bool :=
  match cs with
  | [] => true
  | c :: cs' => (b <=? Task.time_of c) && clock_nondecreasing (Task.time_of c) cs'
  end.

(** The reading of the last call, or [b] when there is none. *)
Fixpoint final_reading (b : Z) (cs : list Task.call) : Z :=
  match cs with
  | [] => b
  | c :: cs' => final_reading (Task.time_of c) cs'
  end.

(** Every interval started at or before [b], and ended, if it did, between
    its start and [b], at a reading other than 0. *)
Definition within (b : Z) (iv : Interval.t) : Prop :=
  ∃ s, Interval.startMs iv = Some s ∧ s ≤ b
       ∧ (Interval.endMs iv = None
          ∨ ∃ e, Interval.endMs iv = Some e ∧ s ≤ e ∧ e ≤ b ∧ e ≠ 0).

(** Every reference of the model's array is an allocated task. *)
Definition valid_refs (this : Model.t) (w : World) : Prop :=
  Forall (λ r, (r < length (heap w))%nat) (Model.tasks this).

(** The ids of the allocated tasks are pairwise different and below the counter. *)
Definition unique_below (w : World) : Prop :=
  NoDup (Task.id <$> heap w) ∧ Forall (λ t, Task.id t < gid w) (heap w).

(** The task that [new Task()] followed by [deserialize] makes of a document
    entry; the counter at that moment does not show in it. *)
Definition restored (serializedTask : SerializedTask.t) : Task.t :=
  (Task.deserialize serializedTask (Task.new 0).1 1).1.

(** What a reload keeps of a task: everything but the id, which is one more. *)
Definition reloaded_from (t t' : Task.t) : Prop :=
  Task.name t' = Task.name t
  ∧ Task.status t' = Task.status t
  ∧ Task.intervals t' = Task.intervals t
  ∧ Task.id t' = Task.id t + 1
  ∧ ∀ now, Task.elapsed now t' = Task.elapsed now t.

(** The table shows the model's tasks, one row each, in the model's order. *)
Definition synced (v : View.t) : Prop :=
  TaskTableRowEl.task <$> TaskTableEl.rowEls (View.taskTableEl v)
  = Model.tasks (View.model v).

(** * Properties *)

(** ** Arrays: [indexOf] and [splice] *)

Section arrays.
Context `{EqDecision A}.
Implicit Types (x : A) (l : list A).

Lemma indexOf_absent x l : x ∉ l → indexOf x l = (-1).
Proof.
  induction l as [|y l IH]; intros Hx; simpl; [done|].
  apply not_elem_of_cons in Hx as [Hne Hl].
  rewrite decide_False by done.
  rewrite (IH Hl). reflexivity.
Qed.

Lemma indexOf_first x l :
  x ∈ l →
  ∃ l1 l2, l = l1 ++ x :: l2 ∧ (x ∉ l1) ∧ indexOf x l = Z.of_nat (length l1).
Proof.
  induction l as [|y l IH]; intros Hx; [by apply elem_of_nil in Hx|].
  simpl. destruct (decide (y = x)) as [->|Hne].
  - exists [], l. split_and!; [done|apply not_elem_of_nil|done].
  - apply elem_of_cons in Hx as [->|Hx]; [done|].
    destruct (IH Hx) as (l1 & l2 & -> & Hl1 & Hi).
    exists (y :: l1), l2. split_and!.
    + done.
    + apply not_elem_of_cons. split; [congruence|done].
    + rewrite Hi. destruct (Z.ltb_spec (Z.of_nat (length l1)) 0); simpl length; lia.
Qed.

Lemma splice_one_at l1 x l2 :
  splice (Z.of_nat (length l1)) 1 (l1 ++ x :: l2) = l1 ++ l2.
Proof.
  unfold splice. rewrite length_app. simpl length.
  destruct (Z.ltb_spec (Z.of_nat (length l1)) 0); [lia|].
  rewrite Z.min_l by lia.
  replace (Z.min (Z.max 1 0) _) with 1 by lia.
  rewrite Nat2Z.id.
  replace (Z.to_nat (Z.of_nat (length l1) + 1)) with (length l1 + 1)%nat by lia.
  rewrite take_app_length. rewrite drop_app_add'; [|done]. reflexivity.
Qed.

Lemma splice_last l x : splice (-1) 1 (l ++ [x]) = l.
Proof.
  unfold splice. rewrite length_app. simpl length.
  destruct (Z.ltb_spec (-1) 0); [|lia].
  replace (Z.max (Z.of_nat (length l + 1) + -1) 0) with (Z.of_nat (length l)) by lia.
  replace (Z.min (Z.max 1 0) _) with 1 by lia.
  rewrite Nat2Z.id.
  replace (Z.to_nat (Z.of_nat (length l) + 1)) with (length l + 1)%nat by lia.
  rewrite take_app_length. rewrite drop_app_add'; [|done].
  simpl. apply app_nil_r.
Qed.
End arrays.

(** ** Deleting a task *)

Lemma Model_new_bus JSON_parse w this w' bus :
  Model.new JSON_parse EventBus.new w = Return (this, w', bus) → bus = model_bus.
Proof.
  unfold Model.new. destruct (Model.load _ _ _) as [[m1 w1]|e]; simpl; [|done].
  by intros [= _ _ <-].
Qed.

Lemma fire_delete_task task this :
  EventBus.fireEvent "delete_task" task model_bus this
  = Return {| Model.tasks :=
                splice (indexOf task (Model.tasks this)) 1 (Model.tasks this) |}.
Proof. reflexivity. Qed.

(** C8. When the model's collection contains the task, the ['delete_task']
    event removes its first (only) entry and nothing else: the collection
    becomes [l1 ++ l2] where it was [l1 ++ task :: l2], so it is one shorter,
    every other task is still there, and the order of the rest is kept. *)
Theorem delete_task_removes_that_entry (this : Model.t) (task : ref) :
  task ∈ Model.tasks this →
  ∃ l1 l2 this',
    Model.tasks this = l1 ++ task :: l2 ∧ (task ∉ l1) ∧
    EventBus.fireEvent "delete_task" task model_bus this = Return this' ∧
    Model.tasks this' = l1 ++ l2 ∧
    S (length (Model.tasks this')) = length (Model.tasks this) ∧
    (∀ other, other ≠ task → other ∈ Model.tasks this → other ∈ Model.tasks this') ∧
    Model.tasks this' `sublist_of` Model.tasks this.
Proof.
  intros Hin. destruct (indexOf_first _ _ Hin) as (l1 & l2 & Hl & Hl1 & Hi).
  exists l1, l2, {| Model.tasks := l1 ++ l2 |}.
  rewrite fire_delete_task, Hi, Hl, splice_one_at. simpl.
  split_and!; try done.
  - rewrite !length_app. simpl. lia.
  - intros other Hne. rewrite !elem_of_app, elem_of_cons.
    intros [?|[?|?]]; [by left|done|by right].
  - apply sublist_app; [done|]. by apply sublist_cons.
Qed.

Lemma delete_task_removes_that_entry_witness :
  ∃ l1 l2 this',
    [4; 7; 9]%nat = l1 ++ 7%nat :: l2 ∧ (7%nat ∉ l1) ∧
    EventBus.fireEvent "delete_task" 7%nat model_bus (Model.mk [4; 7; 9]%nat)
      = Return this' ∧
    Model.tasks this' = l1 ++ l2 ∧
    S (length (Model.tasks this')) = 3%nat ∧
    (∀ other, other ≠ 7%nat → other ∈ [4; 7; 9]%nat → other ∈ Model.tasks this') ∧
    Model.tasks this' `sublist_of` [4; 7; 9]%nat.
Proof.
  apply (delete_task_removes_that_entry (Model.mk [4; 7; 9]%nat) 7%nat).
  simpl. apply list_elem_of_In. simpl. tauto.
Defined.

(** C9. When the non-empty collection does not contain the task, [indexOf]
    is -1 and [splice(-1, 1)] deletes the last element: the event returns
    normally and the collection has lost its final task. *)
Theorem delete_absent_task_removes_last (this : Model.t) (task : ref) :
  Model.tasks this ≠ [] →
  task ∉ Model.tasks this →
  indexOf task (Model.tasks this) = (-1) ∧
  ∃ l final this',
    Model.tasks this = l ++ [final] ∧
    EventBus.fireEvent "delete_task" task model_bus this = Return this' ∧
    Model.tasks this' = l ∧
    Model.tasks this' ≠ Model.tasks this.
Proof.
  intros Hne Hnotin. split; [by apply indexOf_absent|].
  rewrite fire_delete_task, indexOf_absent by done.
  destruct (Model.tasks this) as [|r rs _] using rev_ind; [done|].
  exists rs, r, {| Model.tasks := rs |}. rewrite splice_last.
  split_and!; try done.
  simpl. intros Heq. apply (f_equal length) in Heq.
  rewrite length_app in Heq. simpl in Heq. lia.
Qed.

Lemma delete_absent_task_removes_last_witness :
  indexOf 5%nat [4; 7; 9]%nat = (-1) ∧
  ∃ l final this',
    [4; 7; 9]%nat = l ++ [final] ∧
    EventBus.fireEvent "delete_task" 5%nat model_bus (Model.mk [4; 7; 9]%nat)
      = Return this' ∧
    Model.tasks this' = l ∧
    Model.tasks this' ≠ [4; 7; 9]%nat.
Proof.
  apply (delete_absent_task_removes_last (Model.mk [4; 7; 9]%nat) 5%nat).
  - simpl. discriminate.
  - simpl. rewrite list_elem_of_In. simpl. lia.
Defined.

(** ** [Interval.elapsed] *)

Lemma or_else_absent now : or_else None now = Some now.
Proof. reflexivity. Qed.

Lemma or_else_nonzero e now : e ≠ 0 → or_else (Some e) now = Some e.
Proof.
  intros He. unfold or_else. simpl.
  destruct (Z.eqb_spec e 0); [done|reflexivity].
Qed.

Lemma Interval_elapsed_open now s :
  Interval.elapsed now (Interval.mk (Some s) None) = Num (now - s).
Proof. reflexivity. Qed.

Lemma Interval_elapsed_closed now s e :
  e ≠ 0 → Interval.elapsed now (Interval.mk (Some s) (Some e)) = Num (e - s).
Proof. intros He. unfold Interval.elapsed. simpl. by rewrite or_else_nonzero. Qed.

(** C10. An interval whose [endMs] is 0 is measured like an open one:
    [this.endMs || Date.now()] tests truthiness, so [elapsed()] is the clock
    reading minus [startMs], whatever the clock reads. *)
Theorem Interval_elapsed_endMs_zero (this : Interval.t) (now : Z) :
  Interval.endMs this = Some 0 →
  Interval.elapsed now this = number_sub (Num now) (ToNumber (Interval.startMs this))
  ∧ Interval.elapsed now this
    = Interval.elapsed now (Interval.mk (Interval.startMs this) None).
Proof.
  intros Hend. unfold Interval.elapsed. rewrite Hend. simpl. done.
Qed.

Lemma Interval_elapsed_endMs_zero_witness :
  let restored :=
    Interval.deserialize (SerializedInterval.mk (Some 1500) (Some 0)) Interval.new in
  Interval.elapsed 9000 restored = number_sub (Num 9000) (ToNumber (Some 1500))
  ∧ Interval.elapsed 9000 restored
    = Interval.elapsed 9000 (Interval.mk (Some 1500) None).
Proof.
  intros restored.
  apply (Interval_elapsed_endMs_zero restored 9000). reflexivity.
Defined.

(** ** [formatDuration] *)

Lemma padded_below_60 n : 0 ≤ n < 60 → padded n = two_digits n.
Proof.
  intros Hn.
  assert (Hall : Forall (λ k, padded k = two_digits k) (seqZ 0 60)).
  { apply (bool_decide_unpack _). vm_compute. exact I. }
  rewrite Forall_forall in Hall. apply Hall, elem_of_seqZ. lia.
Qed.

Lemma Pos_to_uint_no_leading_zero p u : Pos.to_uint p ≠ Decimal.D0 u.
Proof.
  intros Hp.
  assert (Hnorm : Decimal.unorm (Pos.to_uint p) = Pos.to_uint p).
  { rewrite <- DecimalPos.Unsigned.to_of, DecimalPos.Unsigned.of_to. reflexivity. }
  rewrite Hp, unorm_D0 in Hnorm.
  destruct u as [|u|u|u|u|u|u|u|u|u|u];
    [by apply (DecimalPos.Unsigned.to_uint_nonzero p)|..];
    match type of Hnorm with
    | Decimal.unorm ?v = _ =>
        assert (Hlen : (Decimal.nb_digits (Decimal.unorm v) ≤ Decimal.nb_digits v)%nat)
          by (by apply nb_digits_unorm);
        rewrite Hnorm in Hlen; simpl in Hlen; lia
    end.
Qed.

Lemma String_of_Z_unpadded h : 0 ≤ h → unpadded (String_of_Z h).
Proof.
  intros Hh. destruct h as [|p|p]; [by left| |lia].
  right. unfold String_of_Z. simpl.
  pose proof (Pos_to_uint_no_leading_zero p) as Hnz.
  pose proof (DecimalPos.Unsigned.to_uint_nonnil p) as Hnn.
  destruct (Pos.to_uint p) as [|u|u|u|u|u|u|u|u|u|u]; simpl;
    [done|by destruct (Hnz u)|..]; eexists _, _; (split; [reflexivity|discriminate]).
Qed.

Lemma js_mod_nonneg x y : 0 ≤ x → 0 < y → js_mod x y = x mod y.
Proof. intros Hx Hy. unfold js_mod. apply Z.rem_mod_nonneg; lia. Qed.

(** The divisions of [formatDuration] are exact where its durations live:
    with a divisor below 1024 and a quotient below 2^44 the rounded quotient
    is less than half a unit in the last place from the real one, and that
    unit is at most 2^-9, so flooring finds the same integer. *)
Lemma round_half_even_cases p q :
  0 < q →
  round_half_even p q = p / q
  ∨ (round_half_even p q = p / q + 1 ∧ q ≤ 2 * (p mod q)).
Proof.
  intros Hq. unfold round_half_even.
  destruct (Z.ltb_spec (2 * (p mod q)) q); [by left|].
  destruct (Z.ltb_spec q (2 * (p mod q))); [right; split; [done|lia]|].
  destruct (Z.even (p / q)); [by left|right; split; [done|lia]].
Qed.

Lemma round_half_even_scaled a b T :
  0 ≤ a → 0 < b → 0 < T → b < 2 * T →
  round_half_even (a * T) b / T = a / b.
Proof.
  intros Ha Hb HT HbT.
  pose proof (Z.div_mod a b ltac:(lia)) as Hab.
  pose proof (Z.mod_pos_bound a b Hb) as Hrb.
  pose proof (Z.div_mod (a * T) b ltac:(lia)) as HaT.
  pose proof (Z.mod_pos_bound (a * T) b Hb) as HrT.
  pose proof (round_half_even_cases (a * T) b Hb) as Hcases.
  set (n := round_half_even (a * T) b) in *.
  set (Q := a / b) in *. set (f := a * T / b) in *.
  set (R := a mod b) in *. set (r := (a * T) mod b) in *.
  clearbody n Q f R r.
  assert (Hlow : Q * T ≤ f).
  { assert (b * (Q * T) < b * (f + 1)) by nia. nia. }
  assert (Hup : f < (Q + 1) * T).
  { assert (b * f < b * ((Q + 1) * T)) by nia. nia. }
  symmetry. apply (Z.div_unique_pos _ _ _ (n - Q * T)); [|lia].
  destruct Hcases as [-> | [-> Hhalf]]; [lia|].
  split; [lia|].
  assert (b * (2 * f + 1) < b * (2 * (Q + 1) * T - 1)) by nia. nia.
Qed.

Lemma floor_div_exact a b :
  0 ≤ a → 0 < b < 1024 → a / b < 2 ^ 44 → floor_div a b = a / b.
Proof.
  intros Ha Hb Hq. unfold floor_div.
  destruct (Z.eqb_spec a 0) as [->|Hne]; [by rewrite Z.div_0_l by lia|].
  rewrite Z.abs_eq by lia. rewrite Z.sgn_pos by lia.
  set (e := if b <=? a then Z.log2 (a / b) else - Z.log2_up ((b + a - 1) / a)).
  assert (He : e ≤ 43).
  { subst e. destruct (Z.leb_spec b a).
    - assert (0 < a / b) by (apply Z.div_str_pos; lia).
      assert (Z.log2 (a / b) < 44) by (by apply Z.log2_lt_pow2).
      lia.
    - pose proof (Z.log2_up_nonneg ((b + a - 1) / a)). lia. }
  assert (Hsh : 9 ≤ 52 - e) by lia.
  destruct (Z.leb_spec 0 (52 - e)); [|lia].
  rewrite Z.mul_1_l. apply round_half_even_scaled; [lia|lia| |].
  - apply Z.pow_pos_nonneg; lia.
  - assert (2 ^ 9 ≤ 2 ^ (52 - e)) by (apply Z.pow_le_mono_r; lia).
    change (2 ^ 9) with 512 in *. lia.
Qed.

Lemma to_double_safe z : Z.abs z < 2 ^ 53 → to_double z = z.
Proof.
  intros Hz. unfold to_double.
  by destruct (Z.ltb_spec (Z.abs z) (2 ^ 53)); [|lia].
Qed.

Lemma formatDuration_render (durationMs : Z) :
  0 ≤ durationMs < 2 ^ 53 →
  formatDuration durationMs
  = render_H_MM_SS (durationMs / 1000 / 60 / 60)
      ((durationMs / 1000 / 60) mod 60) ((durationMs / 1000) mod 60).
Proof.
  intros Hd.
  assert (Hs : 0 ≤ durationMs / 1000 < 2 ^ 44).
  { split; [apply Z.div_pos; lia|]. apply Z.div_lt_upper_bound; lia. }
  assert (Hm : 0 ≤ durationMs / 1000 / 60 < 2 ^ 44).
  { split; [apply Z.div_pos; lia|]. apply Z.div_lt_upper_bound; lia. }
  assert (Hh : 0 ≤ durationMs / 1000 / 60 / 60 < 2 ^ 44).
  { split; [apply Z.div_pos; lia|]. apply Z.div_lt_upper_bound; lia. }
  unfold formatDuration, render_H_MM_SS.
  rewrite to_double_safe by lia.
  rewrite (floor_div_exact durationMs 1000) by lia.
  rewrite (floor_div_exact (durationMs / 1000) 60) by lia.
  rewrite (floor_div_exact (durationMs / 1000 / 60) 60) by lia.
  rewrite !js_mod_nonneg by lia.
  fold (padded ((durationMs / 1000) mod 60)).
  fold (padded ((durationMs / 1000 / 60) mod 60)).
  rewrite !padded_below_60 by (apply Z.mod_pos_bound; lia).
  reflexivity.
Qed.

(** C5, as the specification has it, fails for a duration beyond the safe
    integers: at 144115224104652992 ms the quotient by 1000, rounded to a
    double, is the next integer, so the program shows one second more than
    the whole seconds of the duration. *)
Lemma formatDuration_beyond_safe_integers :
  let d := 144115224104652992 in
  0 ≤ d
  ∧ to_double d = d
  ∧ floor_div d 1000 = d / 1000 + 1
  ∧ formatDuration d = "40032006695:44:13"
  ∧ render_H_MM_SS (d / 1000 / 60 / 60) ((d / 1000 / 60) mod 60) ((d / 1000) mod 60)
    = "40032006695:44:12".
Proof. vm_compute. split_and!; try reflexivity. discriminate. Qed.

(** C5, as the code has it.  For a non-negative number of milliseconds below
    2^53, [formatDuration] renders the whole seconds [durationMs / 1000] as
    hours (decimal, unpadded), minutes modulo 60 and seconds modulo 60 (two
    digits each), separated by colons; the three values of the specification
    come out as stated. *)
Theorem formatDuration_H_MM_SS :
  (∀ durationMs, 0 ≤ durationMs < 2 ^ 53 →
     let s := durationMs / 1000 in
     let m := s / 60 in
     let h := m / 60 in
     formatDuration durationMs = render_H_MM_SS h (m mod 60) (s mod 60)
     ∧ unpadded (String_of_Z h))
  ∧ formatDuration 0 = "0:00:00"
  ∧ formatDuration 61000 = "0:01:01"
  ∧ formatDuration 3661000 = "1:01:01".
Proof.
  split; [|by vm_compute].
  intros d Hd s m h. split; [by apply formatDuration_render|].
  apply String_of_Z_unpadded. subst s m h. repeat apply Z.div_pos; lia.
Qed.

Lemma formatDuration_H_MM_SS_witness :
  formatDuration 86399999 = render_H_MM_SS 23 59 59
  ∧ unpadded (String_of_Z 23).
Proof.
  apply (proj1 formatDuration_H_MM_SS 86399999). lia.
Defined.

(** ** Serialize and deserialize *)

Lemma Interval_roundtrip (this : Interval.t) :
  Interval.deserialize (Interval.serialize this) Interval.new = this.
Proof. by destruct this. Qed.

Lemma Interval_roundtrip_open (s : Z) :
  Interval.deserialize (Interval.serialize (Interval.mk (Some s) None)) Interval.new
  = Interval.mk (Some s) None.
Proof. reflexivity. Qed.

Lemma intervals_roundtrip (l : list Interval.t) :
  map (λ serializedInterval,
         let interval := Interval.new in
         Interval.deserialize serializedInterval interval)
      (map (λ interval, Interval.serialize interval) l) = l.
Proof.
  induction l as [|iv l IH]; [done|].
  simpl. f_equal; [by destruct iv|exact IH].
Qed.

(** C1. Serialising a task and deserialising the document into a fresh
    [Task] gives back the name, the status and the ordered interval list
    (open intervals included), but not the id: the closing statement
    [gid = this.id++] of [deserialize] leaves the restored task with the
    serialised id plus one. *)
Theorem Task_roundtrip_id_plus_one (t : Task.t) (gid0 : Z) :
  let fresh := Task.new gid0 in
  let restored := (Task.deserialize (Task.serialize t) fresh.1 fresh.2).1 in
  Task.name restored = Task.name t
  ∧ Task.status restored = Task.status t
  ∧ Task.intervals restored = Task.intervals t
  ∧ Task.id restored = Task.id t + 1
  ∧ Task.id restored ≠ Task.id t.
Proof.
  simpl. rewrite intervals_roundtrip. split_and!; try done. lia.
Qed.

(** The same at a task made by the program: created when the counter is 3,
    run at 1000, paused at 2500, run again at 4000. *)
Example Task_roundtrip_at_task_3 :
  ∃ t, Task.perform_all [Task.Toggle 1000; Task.Toggle 2500; Task.Toggle 4000]
         (Task.new 3).1 = Return t
  ∧ Task.id t = 3
  ∧ (Task.deserialize (Task.serialize t) (Task.new 4).1 (Task.new 4).2).1
    = {| Task.id := 4;
         Task.name := "Task 3";
         Task.intervals := [Interval.mk (Some 1000) (Some 2500);
                            Interval.mk (Some 4000) None];
         Task.status := "RUNNING" |}.
Proof. eexists. split; [reflexivity|]. split; reflexivity. Qed.

(** ** The id counter across a reload *)

Lemma Task_deserialize_counter serialized this gid0 :
  (Task.deserialize serialized this gid0).2 = SerializedTask.id serialized.
Proof. reflexivity. Qed.

(** C2. Deserialising a task whose serialised id is [K] leaves the global
    counter at [K] itself, which is never [max(counter, K + 1)], and the
    next [addTask()] creates a task whose id is [K], not greater than [K]. *)
Theorem addTask_after_deserialize_reuses_id
    (serializedTask : SerializedTask.t) (this : Model.t) (w : World) :
  let K := SerializedTask.id serializedTask in
  let loaded := Model.deserialize (SerializedModel.mk [serializedTask]) this w in
  let added := Model.addTask loaded.1 loaded.2 in
  gid loaded.2 = K
  ∧ (∀ counter, gid loaded.2 ≠ Z.max counter (K + 1))
  ∧ ∃ task, heap added.2 !! added.1.1 = Some task
            ∧ Task.id task = K
            ∧ ¬ (K < Task.id task).
Proof.
  simpl. split_and!; [done|lia|].
  eexists. split; [by apply list_lookup_middle|]. simpl. lia.
Qed.

(** The same on a page that starts with counter 0 and restores one task of
    id 5: the restored task gets id 6 and the task added next gets id 5. *)
Example addTask_after_deserialize_id_5 :
  let doc := SerializedModel.mk [SerializedTask.mk 5 "Task 5" [] "PAUSED"] in
  let loaded := Model.deserialize doc (Model.mk []) (mkWorld 0 [] ∅) in
  let added := Model.addTask loaded.1 loaded.2 in
  gid loaded.2 = 5
  ∧ Task.id <$> heap added.2 = [6; 5]
  ∧ Model.tasks added.1.2 = [0; 1]%nat.
Proof. by vm_compute. Qed.

(** ** [Model.load] *)

(** C6, as the code has it.  With nothing stored under ['timetracker'] (or
    the empty string), [load()] returns normally and touches neither the
    task list nor the rest of the page; a stored text on which [JSON.parse]
    throws makes [load()] throw the same exception, there being no handler. *)
Theorem Model_load_missing_or_unparsable
    (JSON_parse : string → exn SerializedModel.t) (this : Model.t) (w : World) :
  (localStorage w !! "timetracker" = None ∨ localStorage w !! "timetracker" = Some ""
   → Model.load JSON_parse this w = Return (this, w))
  ∧ (∀ text e,
       localStorage w !! "timetracker" = Some text → text ≠ "" →
       JSON_parse text = Throw e →
       Model.load JSON_parse this w = Throw e
       ∧ Model.new JSON_parse EventBus.new w = Throw e).
Proof.
  split.
  - unfold Model.load. intros [-> | ->]; [done|]. by rewrite decide_True.
  - intros text e Hstored Hne Hparse.
    assert (Hload : ∀ m, Model.load JSON_parse m w = Throw e).
    { intros m. unfold Model.load. rewrite Hstored, decide_False by done.
      by rewrite Hparse. }
    split; [apply Hload|]. unfold Model.new. by rewrite Hload.
Qed.

Lemma Model_load_missing_or_unparsable_witness :
  Model.load (λ _, Throw SyntaxError) (Model.mk []) (mkWorld 0 [] ∅)
  = Return (Model.mk [], mkWorld 0 [] ∅).
Proof.
  apply (proj1 (Model_load_missing_or_unparsable
                  (λ _, Throw SyntaxError) (Model.mk []) (mkWorld 0 [] ∅))).
  left. reflexivity.
Defined.

(** C6, as the specification has it, fails on a stored text that is not
    JSON.  The page stores the one character ["{"], which [JSON.parse]
    rejects with a SyntaxError; [load()], and with it [new Model()], ends
    in that exception instead of leaving an empty task list. *)
Lemma Model_load_malformed_throws :
  let JSON_parse : string → exn SerializedModel.t := λ _, Throw SyntaxError in
  let w := mkWorld 0 [] {[ "timetracker" := "{" ]} in
  Model.load JSON_parse (Model.mk []) w = Throw SyntaxError
  ∧ Model.load JSON_parse (Model.mk []) w ≠ Return (Model.mk [], w)
  ∧ Model.new JSON_parse EventBus.new w = Throw SyntaxError.
Proof. split_and!; [reflexivity|discriminate|reflexivity]. Qed.

(** ** [Task.run], [Task.pause], [Task.toggle] *)

Lemma Task_pause_last now this l iv :
  Task.intervals this = l ++ [iv] →
  Task.pause now this
  = Return {| Task.id := Task.id this;
              Task.name := Task.name this;
              Task.intervals := l ++ [Interval.stop now iv];
              Task.status := TaskStatus.PAUSED |}.
Proof.
  intros Hl. unfold Task.pause. rewrite Hl, length_app. simpl length.
  replace (length l + 1 - 1)%nat with (length l) by lia.
  rewrite list_lookup_middle by done.
  rewrite insert_app_r_alt, Nat.sub_diag by done. reflexivity.
Qed.

Lemma Task_toggle_paused now this :
  Task.status this = TaskStatus.PAUSED →
  Task.toggle now this = Return (Task.run now this).
Proof. intros Hs. unfold Task.toggle. by rewrite decide_True. Qed.

Lemma Task_toggle_running now this :
  Task.status this = TaskStatus.RUNNING →
  Task.toggle now this = Task.pause now this.
Proof.
  intros Hs. unfold Task.toggle.
  rewrite decide_False by (rewrite Hs; discriminate).
  by rewrite decide_True.
Qed.

(** C7, as the specification has it, fails when the clock does not advance
    between the two calls: toggled twice at the reading 1000, a new task has
    one closed interval whose [endMs] equals its [startMs]. *)
Lemma toggle_twice_same_reading :
  ∃ t iv,
    Task.perform_all [Task.Toggle 1000; Task.Toggle 1000] (Task.new 0).1 = Return t
    ∧ Task.intervals t = [iv]
    ∧ Interval.startMs iv = Some 1000
    ∧ Interval.endMs iv = Some 1000
    ∧ ¬ ends_after_start iv.
Proof.
  eexists _, _. split_and!; try reflexivity.
  intros (s & e & [= <-] & [= <-] & Hlt). lia.
Qed.

(** C7, as the code has it.  Toggling a paused task twice, at clock readings
    [now1] then [now2] with [now1 ≤ now2], returns normally, leaves the task
    paused and adds exactly one interval after the existing ones; it is
    closed, its [startMs] is [now1] and its [endMs] is [now2], so
    [startMs ≤ endMs], with [startMs < endMs] exactly when the clock advanced
    between the calls. *)
Theorem toggle_twice_adds_closed_interval (this : Task.t) (now1 now2 : Z) :
  Task.status this = TaskStatus.PAUSED →
  now1 ≤ now2 →
  ∃ t iv s e,
    Task.perform_all [Task.Toggle now1; Task.Toggle now2] this = Return t
    ∧ Task.intervals t = Task.intervals this ++ [iv]
    ∧ Task.status t = TaskStatus.PAUSED
    ∧ Interval.startMs iv = Some s
    ∧ Interval.endMs iv = Some e
    ∧ s = now1
    ∧ e = now2
    ∧ s ≤ e
    ∧ (s < e ↔ now1 < now2).
Proof.
  intros Hs Hle. simpl.
  rewrite (Task_toggle_paused _ _ Hs). simpl.
  rewrite Task_toggle_running by done.
  erewrite Task_pause_last by reflexivity. simpl.
  eexists _, _, now1, now2. split_and!; try reflexivity; done.
Qed.

Lemma toggle_twice_adds_closed_interval_witness :
  ∃ t iv s e,
    Task.perform_all [Task.Toggle 1000; Task.Toggle 2500] (Task.new 0).1 = Return t
    ∧ Task.intervals t = Task.intervals (Task.new 0).1 ++ [iv]
    ∧ Task.status t = TaskStatus.PAUSED
    ∧ Interval.startMs iv = Some s
    ∧ Interval.endMs iv = Some e
    ∧ s = 1000
    ∧ e = 2500
    ∧ s ≤ e
    ∧ (s < e ↔ 1000 < 2500).
Proof.
  apply (toggle_twice_adds_closed_interval (Task.new 0).1 1000 2500).
  - reflexivity.
  - lia.
Defined.

(** ** The trailing open interval *)

Lemma toggled_new gid0 : toggled (Task.new gid0).1.
Proof. apply toggled_paused; [reflexivity|apply Forall_nil_2]. Qed.

Lemma toggled_toggle now t :
  toggled t → ∃ t', Task.toggle now t = Return t' ∧ toggled t'.
Proof.
  intros [Hs Hall | l iv Hs Hl Hall Hopen].
  - rewrite Task_toggle_paused by done. eexists. split; [done|].
    eapply toggled_running; [reflexivity|reflexivity|done|reflexivity].
  - rewrite Task_toggle_running by done.
    rewrite (Task_pause_last _ _ _ _ Hl). eexists. split; [done|].
    apply toggled_paused; [reflexivity|]. simpl.
    apply Forall_app. split; [done|].
    apply Forall_singleton. by eexists.
Qed.

Lemma toggled_perform_all nows t :
  toggled t →
  ∃ t', Task.perform_all (Task.Toggle <$> nows) t = Return t' ∧ toggled t'.
Proof.
  revert t. induction nows as [|now nows IH]; intros t Ht; simpl.
  - by exists t.
  - destruct (toggled_toggle now t Ht) as (t1 & -> & Ht1). simpl. by apply IH.
Qed.

(** C4. Any sequence of [toggle()] calls on a freshly constructed task
    returns normally, and in the task it leaves an interval without [endMs]
    can only be the last one, a last interval without [endMs] means the
    status is RUNNING, and under status PAUSED every interval has [endMs]. *)
Theorem toggle_keeps_one_trailing_open (gid0 : Z) (nows : list Z) :
  ∃ t,
    Task.perform_all (Task.Toggle <$> nows) (Task.new gid0).1 = Return t
    ∧ (∀ i iv, Task.intervals t !! i = Some iv → Interval.endMs iv = None →
               S i = length (Task.intervals t))
    ∧ (∀ iv, last (Task.intervals t) = Some iv → Interval.endMs iv = None →
             Task.status t = TaskStatus.RUNNING)
    ∧ (Task.status t = TaskStatus.PAUSED →
       Forall (λ iv, is_Some (Interval.endMs iv)) (Task.intervals t)).
Proof.
  destruct (toggled_perform_all nows _ (toggled_new gid0)) as (t & Hrun & Ht).
  exists t. split; [done|].
  destruct Ht as [Hs Hall | l iv Hs Hl Hall Hopen].
  - split_and!; [| |done].
    + intros i iv Hi Hnone. rewrite Forall_lookup in Hall.
      specialize (Hall i iv Hi) as [e He]. congruence.
    + intros iv Hlast Hnone. apply last_Some_elem_of in Hlast.
      rewrite Forall_forall in Hall.
      specialize (Hall iv Hlast) as [e He]. congruence.
  - split_and!; [|done|].
    + intros i iv' Hi Hnone. rewrite Hl in Hi |- *.
      rewrite length_app. simpl.
      destruct (decide (i < length l)%nat) as [Hlt|Hge].
      * rewrite lookup_app_l in Hi by done. rewrite Forall_lookup in Hall.
        specialize (Hall i iv' Hi) as [e He]. congruence.
      * apply lookup_lt_Some in Hi. rewrite length_app in Hi. simpl in Hi. lia.
    + intros Hp. rewrite Hs in Hp. discriminate.
Qed.

(** ** [Task.elapsed] *)

(** C3, as the specification has it, fails when [run()] is called on a
    running task: after [run()] at 10 and [run()] at 20 both intervals are
    open and [elapsed()] at 30 counts both, 20 + 10, where the claim counts
    the last one only. *)
Lemma elapsed_run_twice :
  ∃ t,
    Task.perform_all [Task.Run 10; Task.Run 20] (Task.new 0).1 = Return t
    ∧ pause_only_when_open [Task.Run 10; Task.Run 20] (Task.new 0).1 = true
    ∧ Task.elapsed 30 t = Num 30
    ∧ elapsed_closed_and_last_open 30 t = Num 10
    ∧ Task.elapsed 30 t ≠ elapsed_closed_and_last_open 30 t.
Proof. eexists. split_and!; try reflexivity. discriminate. Qed.

Lemma clocked_new gid0 : clocked (Task.new gid0).1.
Proof. split; [apply Forall_nil_2|discriminate]. Qed.

Lemma clocked_run now t : now ≠ 0 → clocked t → clocked (Task.run now t).
Proof.
  intros Hnow [Hall _]. split; simpl.
  - apply Forall_app. split; [done|]. apply Forall_singleton.
    split; [by eexists|done].
  - intros _. by destruct (Task.intervals t).
Qed.

Lemma clocked_pause now t :
  now ≠ 0 → clocked t → Task.intervals t ≠ [] →
  ∃ t', Task.pause now t = Return t' ∧ clocked t'.
Proof.
  intros Hnow [Hall _] Hne.
  destruct (Task.intervals t) as [|iv l _] eqn:Hl using rev_ind; [done|].
  rewrite (Task_pause_last _ _ _ _ Hl). eexists. split; [done|].
  apply Forall_app in Hall as [Hall Hiv]. apply Forall_singleton in Hiv as [Hs _].
  split; simpl; [|discriminate].
  apply Forall_app. split; [done|]. apply Forall_singleton.
  split; simpl; [done|congruence].
Qed.

Lemma has_open_nonempty t : has_open t = true → Task.intervals t ≠ [].
Proof. unfold has_open. by destruct (Task.intervals t). Qed.

Lemma clocked_perform c t :
  Task.time_of c ≠ 0 → clocked t →
  match c with Task.Pause _ => has_open t | _ => true end = true →
  ∃ t', Task.perform c t = Return t' ∧ clocked t'.
Proof.
  intros Hnow Ht Hguard. destruct c as [now|now|now]; simpl in *.
  - eexists. split; [done|]. by apply clocked_run.
  - apply clocked_pause; [done|done|]. by apply has_open_nonempty.
  - unfold Task.toggle.
    destruct (decide (Task.status t = TaskStatus.PAUSED)).
    { eexists. split; [done|]. by apply clocked_run. }
    destruct (decide (Task.status t = TaskStatus.RUNNING)) as [Hrun|].
    { apply clocked_pause; [done|done|]. by apply (clocked_running t Ht). }
    by exists t.
Qed.

Lemma clocked_perform_all cs t :
  Forall (λ c, Task.time_of c ≠ 0) cs → clocked t →
  pause_only_when_open cs t = true →
  ∃ t', Task.perform_all cs t = Return t' ∧ clocked t'.
Proof.
  revert t. induction cs as [|c cs IH]; intros t Hnows Ht Hguard; simpl.
  - by exists t.
  - apply Forall_cons in Hnows as [Hnow Hnows].
    simpl in Hguard. apply andb_true_iff in Hguard as [Hc Hguard].
    destruct (clocked_perform c t Hnow Ht Hc) as (t1 & Hperf & Ht1).
    unfold after in Hguard. rewrite Hperf in Hguard |- *. simpl. by apply IH.
Qed.

Lemma Interval_elapsed_timed now iv :
  timed iv →
  Interval.elapsed now iv = Num (closed_duration iv + open_duration now iv).
Proof.
  destruct iv as [s e]. intros [[s0 Hs] He]. simpl in *. subst s.
  unfold closed_duration, open_duration. simpl. destruct e as [e|].
  - rewrite Interval_elapsed_closed by congruence. f_equal. lia.
  - rewrite Interval_elapsed_open. f_equal.
Qed.

Lemma reduce_elapsed_timed now l acc :
  Forall timed l →
  foldl (λ p c, number_add p c) (Num acc)
        (map (λ interval, Interval.elapsed now interval) l)
  = Num (acc + (sumZ (closed_duration <$> l) + sumZ (open_duration now <$> l))).
Proof.
  revert acc. induction l as [|iv l IH]; intros acc Hall.
  - simpl. f_equal. lia.
  - apply Forall_cons in Hall as [Hiv Hall].
    cbn [map foldl]. rewrite (Interval_elapsed_timed _ _ Hiv).
    cbn [number_add]. rewrite (IH _ Hall). f_equal.
    cbn [fmap list_fmap sumZ foldr]. unfold sumZ. lia.
Qed.

Lemma open_duration_closed now iv : closed iv → open_duration now iv = 0.
Proof.
  intros [e He]. unfold open_duration. rewrite He.
  by destruct (Interval.startMs iv).
Qed.

Lemma sum_open_duration_closed now l :
  Forall closed l → sumZ (open_duration now <$> l) = 0.
Proof.
  induction 1 as [|iv l Hiv _ IH]; [done|].
  cbn [fmap list_fmap sumZ foldr]. fold (sumZ (open_duration now <$> l)).
  rewrite (open_duration_closed _ _ Hiv), IH. reflexivity.
Qed.

Lemma sumZ_app l1 l2 : sumZ (l1 ++ l2) = sumZ l1 + sumZ l2.
Proof.
  induction l1 as [|x l1 IH]; [done|].
  simpl. fold (sumZ (l1 ++ l2)). fold (sumZ l1). lia.
Qed.

Lemma toggled_all_open_is_last_open now t :
  toggled t →
  elapsed_closed_and_all_open now t = elapsed_closed_and_last_open now t.
Proof.
  unfold elapsed_closed_and_all_open, elapsed_closed_and_last_open.
  intros [Hs Hall | l iv Hs Hl Hall Hopen]; f_equal; f_equal.
  - rewrite (sum_open_duration_closed _ _ Hall).
    destruct (last (Task.intervals t)) as [iv|] eqn:Hlast; [|done].
    apply last_Some_elem_of in Hlast. rewrite Forall_forall in Hall.
    by rewrite (open_duration_closed _ _ (Hall iv Hlast)).
  - rewrite Hl, fmap_app, sumZ_app, last_snoc.
    rewrite (sum_open_duration_closed _ _ Hall). simpl. lia.
Qed.

Lemma pause_only_when_open_toggles nows t :
  pause_only_when_open (Task.Toggle <$> nows) t = true.
Proof. revert t. induction nows as [|now nows IH]; intros t; simpl; auto. Qed.

(** When the calls are [toggle()] calls only, at most the last interval is
    open and the two sums agree: there the formula of the specification
    holds as it is written. *)
Lemma elapsed_toggles_closed_and_last_open (gid0 : Z) (nows : list Z) (now : Z) :
  Forall (λ n, n ≠ 0) nows →
  ∃ t,
    Task.perform_all (Task.Toggle <$> nows) (Task.new gid0).1 = Return t
    ∧ Task.elapsed now t = elapsed_closed_and_last_open now t.
Proof.
  intros Hnows.
  destruct (toggled_perform_all nows _ (toggled_new gid0)) as (t & Hrun & Ht).
  assert (Hclock : Forall (λ c, Task.time_of c ≠ 0) (Task.Toggle <$> nows)).
  { by apply Forall_fmap. }
  destruct (clocked_perform_all _ _ Hclock (clocked_new gid0)
              (pause_only_when_open_toggles nows _)) as (t' & Hrun' & [Hall _]).
  rewrite Hrun in Hrun'. injection Hrun' as <-.
  exists t. split; [done|].
  rewrite <- (toggled_all_open_is_last_open _ _ Ht).
  unfold Task.elapsed, elapsed_closed_and_all_open.
  rewrite (reduce_elapsed_timed _ _ _ Hall). f_equal.
Qed.

Lemma has_open_closed t : Forall closed (Task.intervals t) → has_open t = false.
Proof.
  unfold has_open. induction 1 as [|iv l [e He] _ IH]; [done|].
  simpl. rewrite bool_decide_eq_false_2 by congruence. exact IH.
Qed.

Lemma toggled_perform c t :
  toggled t →
  match c with Task.Pause _ => has_open t | _ => true end = true →
  match c with
  | Task.Run _ => negb (bool_decide (Task.status t = TaskStatus.RUNNING))
  | _ => true
  end = true →
  ∃ t', Task.perform c t = Return t' ∧ toggled t'.
Proof.
  intros Ht Hpause Hrun. destruct c as [now|now|now]; simpl.
  - destruct Ht as [Hs Hall | l iv Hs Hl Hall Hopen].
    + eexists. split; [done|].
      eapply toggled_running; [reflexivity|reflexivity|done|reflexivity].
    + by rewrite bool_decide_eq_true_2 in Hrun.
  - destruct Ht as [Hs Hall | l iv Hs Hl Hall Hopen].
    + by rewrite has_open_closed in Hpause.
    + rewrite (Task_pause_last _ _ _ _ Hl). eexists. split; [done|].
      apply toggled_paused; [reflexivity|]. simpl.
      apply Forall_app. split; [done|]. apply Forall_singleton. by eexists.
  - by apply toggled_toggle.
Qed.

Lemma toggled_guarded_perform_all cs t :
  toggled t →
  pause_only_when_open cs t = true →
  run_only_when_not_running cs t = true →
  ∃ t', Task.perform_all cs t = Return t' ∧ toggled t'.
Proof.
  revert t. induction cs as [|c cs IH]; intros t Ht Hpause Hrun; simpl.
  - by exists t.
  - simpl in Hpause, Hrun.
    apply andb_true_iff in Hpause as [Hp Hpause].
    apply andb_true_iff in Hrun as [Hr Hrun].
    destruct (toggled_perform c t Ht Hp Hr) as (t1 & Hperf & Ht1).
    unfold after in Hpause, Hrun. rewrite Hperf in Hpause, Hrun |- *. simpl.
    by apply IH.
Qed.

(** C3, as the code has it.  A sequence of [run()], [pause()] and
    [toggle()] calls on a fresh task, with a clock that never reads 0 and
    [pause()] called only when an open interval exists, returns normally, and
    [elapsed()] at [now] is then the sum of [endMs - startMs] over the closed
    intervals plus [now - startMs] for every open interval.  When moreover
    [run()] is never called on a running task, that is the formula of the
    specification: the closed intervals plus the last interval if it is
    open. *)
Theorem elapsed_closed_plus_every_open (gid0 : Z) (cs : list Task.call) (now : Z) :
  Forall (λ c, Task.time_of c ≠ 0) cs →
  pause_only_when_open cs (Task.new gid0).1 = true →
  ∃ t,
    Task.perform_all cs (Task.new gid0).1 = Return t
    ∧ Task.elapsed now t = elapsed_closed_and_all_open now t
    ∧ (run_only_when_not_running cs (Task.new gid0).1 = true →
       Task.elapsed now t = elapsed_closed_and_last_open now t).
Proof.
  intros Hnows Hguard.
  destruct (clocked_perform_all cs _ Hnows (clocked_new gid0) Hguard)
    as (t & Hrun & [Hall _]).
  assert (Helapsed : Task.elapsed now t = elapsed_closed_and_all_open now t).
  { unfold Task.elapsed, elapsed_closed_and_all_open.
    rewrite (reduce_elapsed_timed _ _ _ Hall). f_equal. }
  exists t. split_and!; [done|done|].
  intros Hruns.
  destruct (toggled_guarded_perform_all cs _ (toggled_new gid0) Hguard Hruns)
    as (t' & Hrun' & Ht').
  rewrite Hrun in Hrun'. injection Hrun' as <-.
  rewrite Helapsed. by apply toggled_all_open_is_last_open.
Qed.

Lemma elapsed_closed_plus_every_open_witness :
  ∃ t,
    Task.perform_all
      [Task.Run 1000; Task.Pause 2500; Task.Run 4000; Task.Run 5000] (Task.new 0).1
    = Return t
    ∧ Task.elapsed 6000 t = elapsed_closed_and_all_open 6000 t
    ∧ (run_only_when_not_running
         [Task.Run 1000; Task.Pause 2500; Task.Run 4000; Task.Run 5000]
         (Task.new 0).1 = true →
       Task.elapsed 6000 t = elapsed_closed_and_last_open 6000 t).
Proof.
  apply (elapsed_closed_plus_every_open 0
           [Task.Run 1000; Task.Pause 2500; Task.Run 4000; Task.Run 5000] 6000).
  - repeat constructor; simpl; lia.
  - reflexivity.
Defined.

(** A history in which [run()] is only called on a paused task. *)
Example elapsed_run_pause_run :
  let cs := [Task.Run 1000; Task.Pause 2500; Task.Run 4000] in
  pause_only_when_open cs (Task.new 0).1 = true
  ∧ run_only_when_not_running cs (Task.new 0).1 = true
  ∧ ∃ t, Task.perform_all cs (Task.new 0).1 = Return t
         ∧ Task.elapsed 6000 t = Num 3500
         ∧ elapsed_closed_and_last_open 6000 t = Num 3500.
Proof. split_and!; [reflexivity..|]. eexists. split_and!; reflexivity. Qed.

(** * Further properties of the code *)

(** ** [EventBus] *)

Section bus_properties.
Context {S D : Type}.
Implicit Types (bus : EventBus.t S D) (listener : EventBus.Listener S D).

Lemma forEach_app (ls1 ls2 : list (EventBus.Listener S D)) (data : D) (s : S) :
  EventBus.forEach (ls1 ++ ls2) data s
  = s' ← EventBus.forEach ls1 data s; EventBus.forEach ls2 data s'.
Proof.
  revert s. induction ls1 as [|l ls1 IH]; intros s; [done|].
  simpl. destruct (l data s) as [s1|e]; simpl; [apply IH|done].
Qed.

Lemma forEach_one listener (data : D) (s : S) :
  EventBus.forEach [listener] data s = listener data s.
Proof. simpl. by destruct (listener data s). Qed.

(** X1. Listeners run in registration order: adding [listener] and then
    firing the event runs the listeners that were there, threading the
    state, and then [listener]; when one of the earlier listeners throws,
    [listener] is not run and the exception is the result.  An event type
    that names a member of [Object.prototype] cannot be used: both
    [addListener] and [fireEvent] throw a TypeError; under any other event
    type [addListener] returns. *)
Theorem fireEvent_runs_new_listener_last eventType listener bus (data : D) (s : S) :
  (bus' ← EventBus.addListener eventType listener bus;
   EventBus.fireEvent eventType data bus' s)
  = (s' ← EventBus.fireEvent eventType data bus s; listener data s')
  ∧ (inherited eventType = true →
     EventBus.addListener eventType listener bus = Throw TypeError
     ∧ EventBus.fireEvent eventType data bus s = Throw TypeError)
  ∧ (inherited eventType = false →
     ∃ bus', EventBus.addListener eventType listener bus = Return bus').
Proof.
  unfold EventBus.fireEvent, EventBus.addListener.
  destruct (inherited eventType) eqn:Hkey; [by split_and!|].
  split_and!; [|done|].
  - destruct (EventBus.listeners bus !! eventType) as [ls|] eqn:Hls; simpl;
      rewrite lookup_insert_eq.
    + rewrite forEach_app. destruct (EventBus.forEach ls data s); simpl; [|done].
      apply forEach_one.
    + apply forEach_one.
  - intros _. destruct (EventBus.listeners bus !! eventType); by eexists.
Qed.

(** X2. Event types are independent: when a listener has been added for one
    event type, firing another event type does what it did before; and
    firing an event type for which nothing was registered, and which names
    no member of [Object.prototype], returns the state as it was. *)
Theorem fireEvent_other_event_type eventType eventType' listener bus bus'
    (data : D) (s : S) :
  eventType ≠ eventType' →
  EventBus.addListener eventType listener bus = Return bus' →
  EventBus.fireEvent eventType' data bus' s = EventBus.fireEvent eventType' data bus s
  ∧ (EventBus.listeners bus !! eventType' = None → inherited eventType' = false →
     EventBus.fireEvent eventType' data bus' s = Return s).
Proof.
  intros Hne Hadd.
  assert (Hsame :
    EventBus.listeners bus' !! eventType' = EventBus.listeners bus !! eventType').
  { unfold EventBus.addListener in Hadd.
    destruct (inherited eventType); [done|].
    destruct (EventBus.listeners bus !! eventType); injection Hadd as <-; simpl;
      by rewrite lookup_insert_ne. }
  unfold EventBus.fireEvent. rewrite Hsame. split; [done|].
  by intros -> ->.
Qed.
End bus_properties.

Lemma fireEvent_other_event_type_witness :
  EventBus.fireEvent "rename_task" 7%nat model_bus (Model.mk [4; 7; 9]%nat)
  = EventBus.fireEvent "rename_task" 7%nat EventBus.new (Model.mk [4; 7; 9]%nat)
  ∧ (EventBus.listeners (EventBus.new (S:=Model.t) (D:=ref)) !! "rename_task" = None →
     inherited "rename_task" = false →
     EventBus.fireEvent "rename_task" 7%nat model_bus (Model.mk [4; 7; 9]%nat)
     = Return (Model.mk [4; 7; 9]%nat)).
Proof.
  apply (fireEvent_other_event_type "delete_task" "rename_task"
           Model.on_delete_task EventBus.new model_bus 7%nat (Model.mk [4; 7; 9]%nat)).
  - discriminate.
  - reflexivity.
Defined.

(** ** [Task.pause] and [Task.toggle] at the edges *)

Lemma Task_pause_empty now this :
  Task.intervals this = [] → Task.pause now this = Throw TypeError.
Proof. intros Hl. unfold Task.pause. by rewrite Hl. Qed.

Lemma Task_pause_returns now this t :
  Task.pause now this = Return t →
  ∃ l iv, Task.intervals this = l ++ [iv]
          ∧ t = {| Task.id := Task.id this;
                   Task.name := Task.name this;
                   Task.intervals := l ++ [Interval.stop now iv];
                   Task.status := TaskStatus.PAUSED |}.
Proof.
  destruct (Task.intervals this) as [|iv l _] eqn:Hl using rev_ind.
  - by rewrite Task_pause_empty.
  - rewrite (Task_pause_last _ _ _ _ Hl). intros [= <-]. by exists l, iv.
Qed.

Lemma Task_pause_throws now this e :
  Task.pause now this = Throw e → e = TypeError ∧ Task.intervals this = [].
Proof.
  destruct (Task.intervals this) as [|iv l _] eqn:Hl using rev_ind.
  - rewrite Task_pause_empty by done. by intros [= <-].
  - by rewrite (Task_pause_last _ _ _ _ Hl).
Qed.

(** X3. [pause()] throws a TypeError exactly when the task has no interval.
    Otherwise it returns, and it has changed nothing but the status, now
    PAUSED, and the [endMs] of the last interval, now the clock reading,
    whether or not that interval was already closed. *)
Theorem Task_pause_outcome (this : Task.t) (now : Z) :
  match Task.pause now this with
  | Throw e => e = TypeError ∧ Task.intervals this = []
  | Return t =>
      Task.id t = Task.id this ∧ Task.name t = Task.name this
      ∧ Task.status t = TaskStatus.PAUSED
      ∧ ∃ l iv, Task.intervals this = l ++ [iv]
                ∧ Task.intervals t = l ++ [Interval.mk (Interval.startMs iv) (Some now)]
  end.
Proof.
  destruct (Task.pause now this) as [t|e] eqn:Hpause.
  - apply Task_pause_returns in Hpause as (l & iv & Hl & ->). simpl.
    split_and!; try done. by exists l, iv.
  - by apply Task_pause_throws in Hpause.
Qed.

(** X4. [toggle()] throws (a TypeError) exactly when the status is RUNNING
    and there is no interval, a state only a stored document can give; and
    under a status that is neither PAUSED nor RUNNING it returns the task
    unchanged. *)
Theorem Task_toggle_outcome (this : Task.t) (now : Z) :
  (Task.toggle now this = Throw TypeError
   ↔ Task.status this = TaskStatus.RUNNING ∧ Task.intervals this = [])
  ∧ (∀ e, Task.toggle now this = Throw e → e = TypeError)
  ∧ (Task.status this ≠ TaskStatus.PAUSED → Task.status this ≠ TaskStatus.RUNNING →
     Task.toggle now this = Return this).
Proof.
  unfold Task.toggle.
  destruct (decide (Task.status this = TaskStatus.PAUSED)) as [Hp|Hp].
  { split_and!; [|done|done]. split; [done|]. intros [Hr _].
    rewrite Hr in Hp. discriminate. }
  destruct (decide (Task.status this = TaskStatus.RUNNING)) as [Hr|Hr].
  - split_and!; [| |done].
    + split.
      * intros Hthrow. by apply Task_pause_throws in Hthrow as [_ Hnil].
      * intros [_ Hnil]. by apply Task_pause_empty.
    + intros e Hthrow. by apply Task_pause_throws in Hthrow as [-> _].
  - split_and!; [|done|done]. split; [done|]. by intros [? _].
Qed.

(** ** Counting toggles *)

Lemma toggles_done_toggle now t :
  toggled t →
  ∃ t', Task.toggle now t = Return t' ∧ toggled t'
        ∧ toggles_done t' = toggles_done t + 1
        ∧ Task.id t' = Task.id t ∧ Task.name t' = Task.name t.
Proof.
  intros [Hs Hall | l iv Hs Hl Hall Hopen].
  - rewrite Task_toggle_paused by done. eexists. split; [done|]. split.
    { eapply toggled_running; [reflexivity|reflexivity|done|reflexivity]. }
    unfold toggles_done. simpl. rewrite length_app. simpl.
    rewrite decide_False by (rewrite Hs; discriminate). split_and!; [lia|done|done].
  - rewrite Task_toggle_running by done.
    rewrite (Task_pause_last _ _ _ _ Hl). eexists. split; [done|]. split.
    { apply toggled_paused; [reflexivity|]. simpl.
      apply Forall_app. split; [done|]. apply Forall_singleton. by eexists. }
    unfold toggles_done. simpl. rewrite Hl, !length_app. simpl.
    rewrite decide_True by done. split_and!; [lia|done|done].
Qed.

Lemma toggles_done_perform_all nows t :
  toggled t →
  ∃ t', Task.perform_all (Task.Toggle <$> nows) t = Return t' ∧ toggled t'
        ∧ toggles_done t' = toggles_done t + Z.of_nat (length nows)
        ∧ Task.id t' = Task.id t ∧ Task.name t' = Task.name t.
Proof.
  revert t. induction nows as [|now nows IH]; intros t Ht; simpl.
  - exists t. split_and!; try done. lia.
  - destruct (toggles_done_toggle now t Ht) as (t1 & -> & Ht1 & Hn1 & Hid1 & Hname1).
    simpl. destruct (IH t1 Ht1) as (t' & Hrun & Ht' & Hn & Hid & Hname).
    exists t'. split_and!; try done; [lia|congruence|congruence].
Qed.

(** X5. After [n] calls of [toggle()] a new task is RUNNING when [n] is odd
    and PAUSED when [n] is even, it has [(n + 1) / 2] intervals, and it still
    has the id and the name it was created with. *)
Theorem toggle_n_times (gid0 : Z) (nows : list Z) :
  let n := Z.of_nat (length nows) in
  ∃ t,
    Task.perform_all (Task.Toggle <$> nows) (Task.new gid0).1 = Return t
    ∧ Task.status t = (if Z.odd n then TaskStatus.RUNNING else TaskStatus.PAUSED)
    ∧ Z.of_nat (length (Task.intervals t)) = (n + 1) / 2
    ∧ Task.id t = gid0
    ∧ Task.name t = "Task " +:+ String_of_Z gid0.
Proof.
  intros n.
  destruct (toggles_done_perform_all nows _ (toggled_new gid0))
    as (t & Hrun & Ht & Hn & Hid & Hname).
  exists t. split; [done|]. split_and!; [| |done|done].
  - unfold toggles_done in Hn. simpl in Hn. fold n in Hn.
    destruct Ht as [Hs Hall | l iv Hs Hl Hall Hopen].
    + rewrite decide_False in Hn by (rewrite Hs; discriminate).
      replace n with (2 * Z.of_nat (length (Task.intervals t))) by lia.
      rewrite Z.odd_mul. simpl. done.
    + rewrite decide_True in Hn by done.
      replace n with (2 * Z.of_nat (length (Task.intervals t)) - 1) by lia.
      rewrite Z.odd_sub, Z.odd_mul. simpl. done.
  - unfold toggles_done in Hn. simpl in Hn. fold n in Hn.
    clearbody n.
    destruct (decide (Task.status t = TaskStatus.RUNNING));
      Z.div_mod_to_equations; lia.
Qed.

(** ** Closed intervals are not touched again *)

Lemma perform_all_app cs1 cs2 t :
  Task.perform_all (cs1 ++ cs2) t
  = t' ← Task.perform_all cs1 t; Task.perform_all cs2 t'.
Proof.
  revert t. induction cs1 as [|c cs1 IH]; intros t; [done|].
  simpl. destruct (Task.perform c t) as [t1|e]; simpl; [apply IH|done].
Qed.

(** What a later state of a task keeps of an earlier one. *)
Lemma kept_toggle now t :
  toggled t →
  ∃ t', Task.toggle now t = Return t' ∧ toggled t'
        ∧ ∀ i iv, Task.intervals t !! i = Some iv →
            ∃ iv', Task.intervals t' !! i = Some iv'
                   ∧ Interval.startMs iv' = Interval.startMs iv
                   ∧ (closed iv → iv' = iv).
Proof.
  intros [Hs Hall | l iv0 Hs Hl Hall Hopen].
  - rewrite Task_toggle_paused by done. eexists. split; [done|]. split.
    { eapply toggled_running; [reflexivity|reflexivity|done|reflexivity]. }
    intros i iv Hi. exists iv. simpl. split_and!; try done.
    by apply lookup_app_l_Some.
  - rewrite Task_toggle_running by done.
    rewrite (Task_pause_last _ _ _ _ Hl). eexists. split; [done|]. split.
    { apply toggled_paused; [reflexivity|]. simpl.
      apply Forall_app. split; [done|]. apply Forall_singleton. by eexists. }
    intros i iv Hi. simpl. rewrite Hl in Hi.
    apply lookup_app_Some in Hi as [Hi | [Hge Hi]].
    + exists iv. split_and!; try done. by apply lookup_app_l_Some.
    + apply list_lookup_singleton_Some in Hi as [Hi0 <-].
      exists (Interval.stop now iv0). split_and!.
      * rewrite lookup_app_r by done. by rewrite Hi0.
      * done.
      * intros [e He]. congruence.
Qed.

Lemma kept_perform_all nows t :
  toggled t →
  ∃ t', Task.perform_all (Task.Toggle <$> nows) t = Return t'
        ∧ ∀ i iv, Task.intervals t !! i = Some iv →
            ∃ iv', Task.intervals t' !! i = Some iv'
                   ∧ Interval.startMs iv' = Interval.startMs iv
                   ∧ (closed iv → iv' = iv).
Proof.
  revert t. induction nows as [|now nows IH]; intros t Ht; simpl.
  - exists t. split; [done|]. intros i iv Hi. by exists iv.
  - destruct (kept_toggle now t Ht) as (t1 & -> & Ht1 & Hkept1). simpl.
    destruct (IH t1 Ht1) as (t' & Hrun & Hkept). exists t'. split; [done|].
    intros i iv Hi. destruct (Hkept1 i iv Hi) as (iv1 & Hi1 & Hs1 & Hc1).
    destruct (Hkept i iv1 Hi1) as (iv' & Hi' & Hs' & Hc').
    exists iv'. split_and!; [done|congruence|].
    intros Hc. rewrite <- (Hc1 Hc). apply Hc'. by rewrite (Hc1 Hc).
Qed.

(** X6. Toggling never rewrites history: whatever [toggle()] calls follow,
    an interval keeps its position and its [startMs], and once it has an
    [endMs] it stays exactly as it is. *)
Theorem toggle_keeps_closed_intervals (gid0 : Z) (before later : list Z) :
  ∃ t1 t2,
    Task.perform_all (Task.Toggle <$> before) (Task.new gid0).1 = Return t1
    ∧ Task.perform_all (Task.Toggle <$> (before ++ later)) (Task.new gid0).1 = Return t2
    ∧ ∀ i iv, Task.intervals t1 !! i = Some iv →
        ∃ iv', Task.intervals t2 !! i = Some iv'
               ∧ Interval.startMs iv' = Interval.startMs iv
               ∧ (is_Some (Interval.endMs iv) → iv' = iv).
Proof.
  destruct (toggled_perform_all before _ (toggled_new gid0)) as (t1 & Hrun1 & Ht1).
  destruct (kept_perform_all later t1 Ht1) as (t2 & Hrun2 & Hkept).
  exists t1, t2. split; [done|]. split; [|exact Hkept].
  rewrite fmap_app, perform_all_app, Hrun1. exact Hrun2.
Qed.

(** ** [Task.elapsed] as time passes *)

Lemma open_duration_mono now1 now2 iv :
  now1 ≤ now2 → open_duration now1 iv ≤ open_duration now2 iv.
Proof.
  intros Hle. unfold open_duration.
  destruct (Interval.startMs iv), (Interval.endMs iv); lia.
Qed.

Lemma sum_open_duration_mono now1 now2 l :
  now1 ≤ now2 → sumZ (open_duration now1 <$> l) ≤ sumZ (open_duration now2 <$> l).
Proof.
  intros Hle. induction l as [|iv l IH]; [done|].
  cbn [fmap list_fmap sumZ foldr].
  fold (sumZ (open_duration now1 <$> l)). fold (sumZ (open_duration now2 <$> l)).
  pose proof (open_duration_mono _ _ iv Hle). lia.
Qed.

Lemma Task_elapsed_clocked now t :
  clocked t → Task.elapsed now t = elapsed_closed_and_all_open now t.
Proof.
  intros [Hall _]. unfold Task.elapsed, elapsed_closed_and_all_open.
  rewrite (reduce_elapsed_timed _ _ _ Hall). f_equal.
Qed.

(** X7. The elapsed time of a task never goes down as the clock goes up:
    for a task made by [run()], [pause()] and [toggle()] calls (clock never
    0, [pause()] only with an open interval), [elapsed()] read at [now1] is
    at most [elapsed()] read at a later [now2], and neither is NaN. *)
Theorem elapsed_never_decreases (gid0 : Z) (cs : list Task.call) (now1 now2 : Z) :
  Forall (λ c, Task.time_of c ≠ 0) cs →
  pause_only_when_open cs (Task.new gid0).1 = true →
  now1 ≤ now2 →
  ∃ t,
    Task.perform_all cs (Task.new gid0).1 = Return t
    ∧ number_le (Task.elapsed now1 t) (Task.elapsed now2 t).
Proof.
  intros Hnows Hguard Hle.
  destruct (clocked_perform_all cs _ Hnows (clocked_new gid0) Hguard)
    as (t & Hrun & Ht).
  exists t. split; [done|].
  rewrite !Task_elapsed_clocked by done.
  unfold elapsed_closed_and_all_open, number_le.
  pose proof (sum_open_duration_mono _ _ (Task.intervals t) Hle). lia.
Qed.

Lemma elapsed_never_decreases_witness :
  ∃ t,
    Task.perform_all [Task.Run 1000; Task.Pause 2500; Task.Toggle 4000]
      (Task.new 0).1 = Return t
    ∧ number_le (Task.elapsed 5000 t) (Task.elapsed 6000 t).
Proof.
  apply (elapsed_never_decreases 0
           [Task.Run 1000; Task.Pause 2500; Task.Toggle 4000] 5000 6000).
  - repeat constructor; simpl; lia.
  - reflexivity.
  - lia.
Defined.

(** X8. A task that [toggle()] calls have left PAUSED shows the same elapsed
    time whenever it is read: [elapsed()] does not depend on the clock, and
    is the sum of [endMs - startMs] over its intervals. *)
Theorem paused_elapsed_ignores_clock (gid0 : Z) (nows : list Z) (now1 now2 : Z) :
  Forall (λ n, n ≠ 0) nows →
  ∃ t,
    Task.perform_all (Task.Toggle <$> nows) (Task.new gid0).1 = Return t
    ∧ (Task.status t = TaskStatus.PAUSED →
       Task.elapsed now1 t = Task.elapsed now2 t
       ∧ Task.elapsed now1 t = Num (sumZ (closed_duration <$> Task.intervals t))).
Proof.
  intros Hnows.
  destruct (toggled_perform_all nows _ (toggled_new gid0)) as (t & Hrun & Ht).
  assert (Hclock : Forall (λ c, Task.time_of c ≠ 0) (Task.Toggle <$> nows)).
  { by apply Forall_fmap. }
  destruct (clocked_perform_all _ _ Hclock (clocked_new gid0)
              (pause_only_when_open_toggles nows _)) as (t' & Hrun' & Hclocked).
  rewrite Hrun in Hrun'. injection Hrun' as <-.
  exists t. split; [done|]. intros Hpaused.
  rewrite !Task_elapsed_clocked by done. unfold elapsed_closed_and_all_open.
  destruct Ht as [_ Hall | l iv Hs _ _ _].
  - rewrite !(sum_open_duration_closed _ _ Hall). split; f_equal; lia.
  - rewrite Hs in Hpaused. discriminate.
Qed.

Lemma paused_elapsed_ignores_clock_witness :
  ∃ t,
    Task.perform_all (Task.Toggle <$> [1000; 2500]) (Task.new 0).1 = Return t
    ∧ (Task.status t = TaskStatus.PAUSED →
       Task.elapsed 3000 t = Task.elapsed 99000 t
       ∧ Task.elapsed 3000 t = Num (sumZ (closed_duration <$> Task.intervals t))).
Proof.
  apply (paused_elapsed_ignores_clock 0 [1000; 2500] 3000 99000).
  repeat constructor; lia.
Defined.

(** ** [Task.elapsed] under a clock that never goes back *)

Lemma within_mono b b' iv : b ≤ b' → within b iv → within b' iv.
Proof.
  intros Hle (s & Hs & Hsb & Hend). exists s. split_and!; [done|lia|].
  destruct Hend as [Hopen | (e & He & Hse & Heb & He0)]; [by left|].
  right. exists e. split_and!; [done|lia|lia|done].
Qed.

Lemma within_timed b iv : within b iv → timed iv.
Proof.
  intros (s & Hs & _ & Hend). split; [by eexists|].
  destruct Hend as [-> | (e & -> & _ & _ & He0)]; congruence.
Qed.

Lemma within_durations b now iv :
  within b iv → b ≤ now → 0 ≤ closed_duration iv ∧ 0 ≤ open_duration now iv.
Proof.
  intros (s & Hs & Hsb & Hend) Hle. unfold closed_duration, open_duration.
  rewrite Hs. destruct Hend as [-> | (e & -> & Hse & _ & _)]; lia.
Qed.

Lemma within_perform b c t :
  1 ≤ b → b ≤ Task.time_of c →
  Forall (within b) (Task.intervals t) → clocked t →
  match c with Task.Pause _ => has_open t | _ => true end = true →
  ∃ t', Task.perform c t = Return t' ∧ clocked t'
        ∧ Forall (within (Task.time_of c)) (Task.intervals t').
Proof.
  intros Hb Hle Hall Hclocked Hguard.
  assert (Hall' : Forall (within (Task.time_of c)) (Task.intervals t)).
  { eapply Forall_impl; [exact Hall|]. intros iv. by apply within_mono. }
  assert (Hrun : ∀ now, now = Task.time_of c →
            Forall (within now) (Task.intervals (Task.run now t))).
  { intros now ->. simpl. apply Forall_app. split; [done|]. apply Forall_singleton.
    exists (Task.time_of c). simpl. split_and!; [done|lia|by left]. }
  assert (Hpause : ∀ now t', now = Task.time_of c → Task.pause now t = Return t' →
            Forall (within now) (Task.intervals t')).
  { intros now t' -> Hp. apply Task_pause_returns in Hp as (l & iv & Hl & ->).
    simpl. rewrite Hl in Hall'. apply Forall_app in Hall' as [Hl' Hiv].
    apply Forall_singleton in Hiv as (s & Hs & Hsb & _).
    apply Forall_app. split; [done|]. apply Forall_singleton.
    exists s. simpl. split_and!; [done|done|]. right.
    exists (Task.time_of c). split_and!; [done|lia|lia|lia]. }
  destruct (clocked_perform c t) as (t' & Hperf & Hclocked'); [lia|done|done|].
  exists t'. split_and!; [done|done|].
  destruct c as [now|now|now]; simpl in *.
  - injection Hperf as <-. by apply Hrun.
  - by eapply Hpause.
  - unfold Task.toggle in Hperf.
    destruct (decide (Task.status t = TaskStatus.PAUSED)).
    { injection Hperf as <-. by apply Hrun. }
    destruct (decide (Task.status t = TaskStatus.RUNNING)).
    { by eapply Hpause. }
    by injection Hperf as <-.
Qed.

Lemma within_perform_all b cs t :
  1 ≤ b → clock_nondecreasing b cs = true →
  Forall (within b) (Task.intervals t) → clocked t →
  pause_only_when_open cs t = true →
  ∃ t', Task.perform_all cs t = Return t' ∧ clocked t'
        ∧ Forall (within (final_reading b cs)) (Task.intervals t').
Proof.
  revert b t. induction cs as [|c cs IH]; intros b t Hb Hclock Hall Hclocked Hguard.
  - by exists t.
  - simpl in Hclock, Hguard.
    apply andb_true_iff in Hclock as [Hle Hclock]. apply Z.leb_le in Hle.
    apply andb_true_iff in Hguard as [Hc Hguard].
    destruct (within_perform b c t Hb Hle Hall Hclocked Hc)
      as (t1 & Hperf & Hclocked1 & Hall1).
    unfold after in Hguard. rewrite Hperf in Hguard. simpl. rewrite Hperf. simpl.
    apply IH; [lia|done|done|done|done].
Qed.

Lemma sumZ_nonneg (l : list Z) : Forall (λ z, 0 ≤ z) l → 0 ≤ sumZ l.
Proof.
  induction 1 as [|z l Hz _ IH]; [done|].
  cbn [sumZ foldr]. fold (sumZ l). lia.
Qed.

(** X9. With a clock that never goes back and never reads below 1, a task
    made by [run()], [pause()] and [toggle()] calls ([pause()] only with an
    open interval) has an elapsed time that is a number and is not negative,
    at any reading not before the last call. *)
Theorem elapsed_not_negative (gid0 : Z) (cs : list Task.call) (now : Z) :
  clock_nondecreasing 1 cs = true →
  pause_only_when_open cs (Task.new gid0).1 = true →
  final_reading 1 cs ≤ now →
  ∃ t z,
    Task.perform_all cs (Task.new gid0).1 = Return t
    ∧ Task.elapsed now t = Num z
    ∧ 0 ≤ z.
Proof.
  intros Hclock Hguard Hnow.
  destruct (within_perform_all 1 cs (Task.new gid0).1) as (t & Hrun & Hclocked & Hall);
    [lia|done|apply Forall_nil_2|apply clocked_new|done|].
  exists t. eexists. split; [done|].
  rewrite Task_elapsed_clocked by done. split; [reflexivity|].
  assert (0 ≤ sumZ (closed_duration <$> Task.intervals t)).
  { apply sumZ_nonneg, Forall_fmap. eapply Forall_impl; [exact Hall|].
    intros iv Hiv. by apply (within_durations _ now iv Hiv). }
  assert (0 ≤ sumZ (open_duration now <$> Task.intervals t)).
  { apply sumZ_nonneg, Forall_fmap. eapply Forall_impl; [exact Hall|].
    intros iv Hiv. by apply (within_durations _ now iv Hiv). }
  lia.
Qed.

Lemma elapsed_not_negative_witness :
  ∃ t z,
    Task.perform_all [Task.Run 1000; Task.Run 1000; Task.Pause 2500; Task.Pause 2600]
      (Task.new 0).1 = Return t
    ∧ Task.elapsed 2600 t = Num z
    ∧ 0 ≤ z.
Proof.
  apply (elapsed_not_negative 0
           [Task.Run 1000; Task.Run 1000; Task.Pause 2500; Task.Pause 2600] 2600).
  - reflexivity.
  - reflexivity.
  - simpl. lia.
Defined.

(** ** An interval without a start *)

Lemma reduce_NaN (l : list number) : foldl (λ p c, number_add p c) NaN l = NaN.
Proof. induction l as [|c l IH]; [done|]. simpl. exact IH. Qed.

Lemma Interval_elapsed_no_start now iv :
  Interval.startMs iv = None → Interval.elapsed now iv = NaN.
Proof.
  intros Hs. unfold Interval.elapsed. rewrite Hs. simpl.
  by destruct (ToNumber (or_else (Interval.endMs iv) now)).
Qed.

Lemma reduce_no_start now l iv acc :
  iv ∈ l → Interval.startMs iv = None →
  foldl (λ p c, number_add p c) acc
        (map (λ interval, Interval.elapsed now interval) l) = NaN.
Proof.
  intros Hin Hs. revert acc. induction l as [|iv' l IH]; intros acc.
  - by apply elem_of_nil in Hin.
  - apply elem_of_cons in Hin as [<- | Hin]; cbn [map foldl].
    + rewrite (Interval_elapsed_no_start _ _ Hs).
      replace (number_add acc NaN) with NaN by (by destruct acc).
      apply reduce_NaN.
    + by apply IH.
Qed.

(** X10. One interval without [startMs] (an interval never started, which a
    stored document can hold) makes the elapsed time of the whole task NaN,
    whatever the other intervals are and whatever the clock reads. *)
Theorem elapsed_NaN_without_start (this : Task.t) (iv : Interval.t) (now : Z) :
  iv ∈ Task.intervals this →
  Interval.startMs iv = None →
  Task.elapsed now this = NaN.
Proof. intros Hin Hs. unfold Task.elapsed. by eapply reduce_no_start. Qed.

Lemma elapsed_NaN_without_start_witness :
  Task.elapsed 9000
    (Task.deserialize
       (SerializedTask.mk 1 "a"
          [SerializedInterval.mk (Some 1000) (Some 2000);
           SerializedInterval.mk None None] "PAUSED")
       (Task.new 0).1 1).1 = NaN.
Proof.
  apply (elapsed_NaN_without_start _ (Interval.mk None None) 9000).
  - simpl. apply list_elem_of_In. simpl. tauto.
  - reflexivity.
Defined.

(** ** [Model.addTask] *)

Lemma indexOf_appended `{EqDecision A} (r : A) (l : list A) :
  r ∉ l → indexOf r (l ++ [r]) = Z.of_nat (length l).
Proof.
  induction l as [|y l IH]; intros Hr; simpl.
  - by rewrite decide_True.
  - apply not_elem_of_cons in Hr as [Hne Hr].
    rewrite decide_False by done. rewrite (IH Hr).
    destruct (Z.ltb_spec (Z.of_nat (length l)) 0); lia.
Qed.

(** X11. While the counter is a safe integer, [addTask()] gives the new task
    an id no allocated task has, as long as the ids so far are pairwise
    different and below the counter, and it keeps that true; the task is
    appended at the end of the model's array. *)
Theorem addTask_fresh_id (this : Model.t) (w : World) :
  safe_integer (gid w) →
  unique_below w →
  let added := Model.addTask this w in
  unique_below added.2
  ∧ Model.tasks added.1.2 = Model.tasks this ++ [added.1.1]
  ∧ ∃ task, heap added.2 !! added.1.1 = Some task
            ∧ Task.id task = gid w
            ∧ Forall (λ t, Task.id t ≠ Task.id task) (heap w).
Proof.
  intros _ [Hnodup Hbelow]. simpl. split_and!.
  - split; simpl.
    + rewrite fmap_app. apply NoDup_app. split_and!; [done| |apply NoDup_singleton].
      intros x Hx Hx'. apply list_elem_of_singleton in Hx' as ->.
      apply list_elem_of_fmap in Hx as (t & Hid & Ht).
      rewrite Forall_forall in Hbelow. specialize (Hbelow t Ht). simpl in Hid. lia.
    + apply Forall_app. split.
      * eapply Forall_impl; [exact Hbelow|]. simpl. intros; lia.
      * apply Forall_singleton. simpl. lia.
  - done.
  - eexists. split; [by apply list_lookup_middle|]. split; [done|].
    eapply Forall_impl; [exact Hbelow|]. simpl. intros; lia.
Qed.

Lemma addTask_fresh_id_witness :
  let w := mkWorld 2 [(Task.new 0).1; (Task.new 1).1] ∅ in
  let added := Model.addTask (Model.mk [0; 1]%nat) w in
  unique_below added.2
  ∧ Model.tasks added.1.2 = [0; 1]%nat ++ [added.1.1]
  ∧ ∃ task, heap added.2 !! added.1.1 = Some task
            ∧ Task.id task = 2
            ∧ Forall (λ t, Task.id t ≠ Task.id task) (heap w).
Proof.
  intros w.
  apply (addTask_fresh_id (Model.mk [0; 1]%nat) w).
  - unfold safe_integer. simpl. lia.
  - split; simpl.
    + apply NoDup_ListNoDup. repeat constructor; simpl; lia.
    + repeat constructor; simpl; lia.
Defined.

(** X12. Adding a task and then deleting it gives back the model's array as
    it was: the new reference is not among the old ones, so the
    ['delete_task'] event removes the entry just appended and no other. *)
Theorem addTask_then_delete (this : Model.t) (w : World) :
  valid_refs this w →
  let added := Model.addTask this w in
  EventBus.fireEvent "delete_task" added.1.1 model_bus added.1.2 = Return this.
Proof.
  intros Hvalid. simpl. rewrite fire_delete_task. simpl.
  assert (Hfresh : length (heap w) ∉ Model.tasks this).
  { intros Hin. unfold valid_refs in Hvalid. rewrite Forall_forall in Hvalid.
    specialize (Hvalid _ Hin). lia. }
  rewrite indexOf_appended by done.
  rewrite splice_one_at, app_nil_r. by destruct this.
Qed.

Lemma addTask_then_delete_witness :
  let this := Model.mk [0; 1]%nat in
  let w := mkWorld 2 [(Task.new 0).1; (Task.new 1).1] ∅ in
  let added := Model.addTask this w in
  EventBus.fireEvent "delete_task" added.1.1 model_bus added.1.2 = Return this.
Proof.
  intros this w.
  apply (addTask_then_delete this w).
  repeat constructor; simpl; lia.
Defined.

(** ** [Model.deserialize] *)

Lemma deserialize_task_restored this w serializedTask :
  Model.deserialize_task (this, w) serializedTask
  = ({| Model.tasks := Model.tasks this ++ [length (heap w)] |},
     {| gid := SerializedTask.id serializedTask;
        heap := heap w ++ [restored serializedTask];
        localStorage := localStorage w |}).
Proof. reflexivity. Qed.

Lemma Model_deserialize_entries (entries : list SerializedTask.t)
    (this : Model.t) (w : World) :
  foldl Model.deserialize_task (this, w) entries
  = ({| Model.tasks := Model.tasks this ++ seq (length (heap w)) (length entries) |},
     {| gid := default (gid w) (SerializedTask.id <$> last entries);
        heap := heap w ++ (restored <$> entries);
        localStorage := localStorage w |}).
Proof.
  revert this w. induction entries as [|s entries IH]; intros this w.
  - simpl. rewrite !app_nil_r. by destruct this, w.
  - cbn [foldl]. rewrite deserialize_task_restored, IH. simpl.
    rewrite length_app. simpl. rewrite <- !app_assoc. simpl.
    replace (length (heap w) + 1)%nat with (S (length (heap w))) by lia.
    do 2 f_equal. destruct entries as [|s' entries]; [done|].
    change (last (s :: s' :: entries)) with (last (s' :: entries)).
    destruct (last (s' :: entries)) eqn:Hlast; [done|].
    by apply last_None in Hlast.
Qed.

(** X13. For a document whose ids are safe integers, [Model.deserialize]
    appends one task per entry of the document, in the document's order;
    each has the entry's name, status and intervals and the entry's id plus
    one.  The global counter ends at the id of the last entry, whatever it
    was before and whatever the other ids are, and an empty document leaves
    it alone.  [localStorage] is not written. *)
Theorem Model_deserialize_appends (serialized : SerializedModel.t)
    (this : Model.t) (w : World) :
  let entries := SerializedModel.tasks serialized in
  Forall (λ entry, safe_integer (SerializedTask.id entry)) entries →
  Model.deserialize serialized this w
  = ({| Model.tasks := Model.tasks this ++ seq (length (heap w)) (length entries) |},
     {| gid := default (gid w) (SerializedTask.id <$> last entries);
        heap := heap w ++ (restored <$> entries);
        localStorage := localStorage w |})
  ∧ Forall (λ entry,
       Task.id (restored entry) = SerializedTask.id entry + 1
       ∧ Task.name (restored entry) = SerializedTask.name entry
       ∧ Task.status (restored entry) = SerializedTask.status entry
       ∧ Interval.serialize <$> Task.intervals (restored entry)
         = SerializedTask.intervals entry) entries.
Proof.
  intros entries _. split; [apply Model_deserialize_entries|].
  apply Forall_forall. intros entry _. split_and!; try done.
  simpl. induction (SerializedTask.intervals entry) as [|[s e] l IH]; [done|].
  simpl. f_equal. exact IH.
Qed.

Lemma Model_deserialize_appends_witness :
  let serialized :=
    SerializedModel.mk
      [SerializedTask.mk 7 "a" [] "PAUSED";
       SerializedTask.mk 2 "b" [SerializedInterval.mk (Some 1000) None] "RUNNING"] in
  let this := Model.mk [0%nat] in
  let w := mkWorld 1 [(Task.new 0).1] ∅ in
  let entries := SerializedModel.tasks serialized in
  Model.deserialize serialized this w
  = ({| Model.tasks := Model.tasks this ++ seq (length (heap w)) (length entries) |},
     {| gid := default (gid w) (SerializedTask.id <$> last entries);
        heap := heap w ++ (restored <$> entries);
        localStorage := localStorage w |})
  ∧ Forall (λ entry,
       Task.id (restored entry) = SerializedTask.id entry + 1
       ∧ Task.name (restored entry) = SerializedTask.name entry
       ∧ Task.status (restored entry) = SerializedTask.status entry
       ∧ Interval.serialize <$> Task.intervals (restored entry)
         = SerializedTask.intervals entry) entries.
Proof.
  intros serialized this w.
  apply (Model_deserialize_appends serialized this w).
  repeat constructor; simpl; lia.
Defined.

(** ** [Model.persist], then a reload *)

Lemma serialize_reloaded (w : World) (refs : list ref) :
  Forall (λ r, (r < length (heap w))%nat) refs →
  Forall2 (λ r t', ∃ t, heap w !! r = Some t ∧ reloaded_from t t')
    refs
    (restored <$> omap (λ task, (λ o, Task.serialize o) <$> heap w !! task) refs).
Proof.
  induction 1 as [|r refs Hr _ IH]; [constructor|].
  apply lookup_lt_is_Some in Hr as [t Ht].
  change (heap w !! (r : ref) = Some t) in Ht.
  simpl. rewrite Ht. simpl. constructor; [|exact IH].
  exists t. split; [done|].
  assert (Hiv : Task.intervals (restored (Task.serialize t)) = Task.intervals t).
  { simpl. apply intervals_roundtrip. }
  split_and!; [done|done|done|done|].
  intros now. unfold Task.elapsed. by rewrite Hiv.
Qed.

Section reload.
Variable JSON_parse : string → exn SerializedModel.t.
Variable JSON_stringify : SerializedModel.t → string.

(** X14. A reload brings every task back: when the ids are safe integers,
    [persist()] has stored the model and [JSON.parse] returns, from the
    stored text, the document that [JSON.stringify] was given, [load()] on a
    new page (counter 0, nothing allocated) returns with as many tasks, in
    the same order, each with the name, status, intervals and so the elapsed
    time of the task it was, and with its id plus one. *)
Theorem persist_then_load (this : Model.t) (w : World) :
  valid_refs this w →
  Forall (λ t, safe_integer (Task.id t)) (heap w) →
  let text := JSON_stringify (Model.serialize this w) in
  text ≠ "" →
  JSON_parse text = Return (Model.serialize this w) →
  let page := mkWorld 0 [] (localStorage (Model.persist JSON_stringify this w)) in
  ∃ this' w',
    Model.load JSON_parse (Model.mk []) page = Return (this', w')
    ∧ Model.tasks this' = seq 0 (length (Model.tasks this))
    ∧ Forall2 (λ r t', ∃ t, heap w !! r = Some t ∧ reloaded_from t t')
        (Model.tasks this) (heap w').
Proof.
  intros Hvalid _ text Hne Hparse page.
  pose proof (serialize_reloaded w (Model.tasks this) Hvalid) as Hall.
  unfold Model.load. subst page. unfold Model.persist. simpl.
  rewrite lookup_insert_eq. fold text. rewrite decide_False by done.
  rewrite Hparse. simpl. unfold Model.deserialize. rewrite Model_deserialize_entries.
  eexists _, _. split; [reflexivity|]. simpl. split; [|exact Hall].
  pose proof (Forall2_length _ _ _ Hall) as Hlen. rewrite length_fmap in Hlen.
  f_equal. symmetry. exact Hlen.
Qed.
End reload.

Lemma persist_then_load_witness :
  let this := Model.mk [0%nat] in
  let w := mkWorld 1 [Task.run 1000 (Task.new 0).1] ∅ in
  let JSON_stringify : SerializedModel.t → string := λ _, "doc" in
  let JSON_parse : string → exn SerializedModel.t :=
    λ _, Return (Model.serialize this w) in
  let page := mkWorld 0 [] (localStorage (Model.persist JSON_stringify this w)) in
  ∃ this' w',
    Model.load JSON_parse (Model.mk []) page = Return (this', w')
    ∧ Model.tasks this' = seq 0 (length (Model.tasks this))
    ∧ Forall2 (λ r t', ∃ t, heap w !! r = Some t ∧ reloaded_from t t')
        (Model.tasks this) (heap w').
Proof.
  intros this w JSON_stringify JSON_parse.
  apply (persist_then_load JSON_parse JSON_stringify this w).
  - repeat constructor.
  - repeat constructor; simpl; lia.
  - discriminate.
  - reflexivity.
Defined.

(** ** The table and the model *)

Lemma findIndex_task (task : ref) (rows : list TaskTableRowEl.t) :
  findIndex (λ taskEl, bool_decide (TaskTableRowEl.task taskEl = task)) rows
  = indexOf task (TaskTableRowEl.task <$> rows).
Proof.
  induction rows as [|row rows IH]; [done|].
  simpl. rewrite IH.
  destruct (decide (TaskTableRowEl.task row = task)) as [Heq|Hne].
  - by rewrite bool_decide_eq_true_2.
  - by rewrite bool_decide_eq_false_2.
Qed.

Lemma splice_fmap {A B} (f : A → B) (start deleteCount : Z) (l : list A) :
  f <$> splice start deleteCount l = splice start deleteCount (f <$> l).
Proof.
  unfold splice. by rewrite fmap_app, fmap_take, fmap_drop, length_fmap.
Qed.

Lemma at_index_absent {A} (l : list A) : at_index (-1) l = None.
Proof. reflexivity. Qed.

Lemma at_index_inside {A} (i : nat) (l : list A) :
  (i < length l)%nat → is_Some (at_index (Z.of_nat i) l).
Proof.
  intros Hi. unfold at_index.
  destruct (Z.ltb_spec (Z.of_nat i) 0); [lia|].
  rewrite Nat2Z.id. by apply lookup_lt_is_Some.
Qed.

Lemma rows_of_tasks (tasks : list ref) (tbl : TaskTableEl.t) :
  TaskTableEl.rowEls
    (foldl (λ tbl task, TaskTableEl.addTask task tbl) tbl tasks)
  = TaskTableEl.rowEls tbl ++ (TaskTableRowEl.new <$> tasks).
Proof.
  revert tbl. induction tasks as [|task tasks IH]; intros tbl; simpl.
  - by rewrite app_nil_r.
  - rewrite IH. simpl. by rewrite <- app_assoc.
Qed.

Lemma delete_click task (v : View.t) :
  View.onDeleteButtonClick task v
  = v1 ← View.model_listener task v; View.table_listener task v1.
Proof.
  unfold View.onDeleteButtonClick.
  change (View.bus ≫= _) with
    (EventBus.forEach [View.model_listener; View.table_listener] task v).
  simpl. match goal with |- ?m ≫= _ = _ => by destruct m end.
Qed.

(** X15. The table shows the model: after [new View(model)], after each
    click on the add button and after each click on the delete button of a
    task of the model, the rows are the model's tasks, one row each, in the
    model's order.  Such a delete click returns normally and removes one
    task and one row. *)
Theorem view_rows_follow_model :
  (∀ model, synced (View.new model))
  ∧ (∀ v w, synced v → synced (View.onAddTaskClick v w).1)
  ∧ (∀ v task, synced v → task ∈ Model.tasks (View.model v) →
       ∃ v', View.onDeleteButtonClick task v = Return v'
             ∧ synced v'
             ∧ S (length (Model.tasks (View.model v')))
               = length (Model.tasks (View.model v))
             ∧ S (length (TaskTableEl.rowEls (View.taskTableEl v')))
               = length (TaskTableEl.rowEls (View.taskTableEl v))).
Proof.
  split_and!.
  - intros model. unfold synced, View.new. simpl. rewrite rows_of_tasks. simpl.
    induction (Model.tasks model) as [|task tasks IH]; [done|].
    simpl. f_equal. exact IH.
  - intros v w Hv. unfold synced in *. simpl. by rewrite fmap_app, Hv.
  - intros v task Hv Hin. unfold synced in Hv.
    destruct (indexOf_first _ _ Hin) as (l1 & l2 & Hl & Hl1 & Hi).
    rewrite delete_click. unfold View.model_listener, Model.on_delete_task. simpl.
    unfold View.table_listener, TaskTableEl.on_delete_task. simpl.
    rewrite findIndex_task, Hv, Hi.
    assert (Hlen : (length l1 < length (TaskTableEl.rowEls (View.taskTableEl v)))%nat).
    { rewrite <- (length_fmap TaskTableRowEl.task), Hv, Hl, length_app. simpl. lia. }
    destruct (at_index_inside _ _ Hlen) as [row ->]. simpl.
    eexists. split; [reflexivity|]. unfold synced. simpl.
    rewrite splice_fmap, Hv. split; [done|].
    rewrite <- (length_fmap TaskTableRowEl.task (splice _ _ _)), splice_fmap, Hv.
    rewrite <- (length_fmap TaskTableRowEl.task (TaskTableEl.rowEls _)), Hv.
    rewrite Hl, splice_one_at, !length_app. simpl. lia.
Qed.

Lemma view_rows_follow_model_witness :
  let v := View.new (Model.mk [4; 7; 9]%nat) in
  ∃ v', View.onDeleteButtonClick 7%nat v = Return v'
        ∧ synced v'
        ∧ S (length (Model.tasks (View.model v')))
          = length (Model.tasks (View.model v))
        ∧ S (length (TaskTableEl.rowEls (View.taskTableEl v')))
          = length (TaskTableEl.rowEls (View.taskTableEl v)).
Proof.
  intros v.
  apply (proj2 (proj2 view_rows_follow_model) v 7%nat).
  - reflexivity.
  - simpl. apply list_elem_of_In. simpl. tauto.
Defined.

(** X16. The table's listener does not tolerate a task it has no row for:
    [findIndex] is -1, [this.rowEls[-1]] is [undefined], and the listener
    throws a TypeError.  On a page whose table shows the model, firing
    ['delete_task'] for a task of neither ends in that TypeError. *)
Theorem delete_without_row_throws (task : ref) :
  (∀ tbl, task ∉ TaskTableRowEl.task <$> TaskTableEl.rowEls tbl →
          TaskTableEl.on_delete_task task tbl = Throw TypeError)
  ∧ (∀ v, synced v → task ∉ Model.tasks (View.model v) →
          View.onDeleteButtonClick task v = Throw TypeError).
Proof.
  assert (Htbl : ∀ tbl, task ∉ TaskTableRowEl.task <$> TaskTableEl.rowEls tbl →
                        TaskTableEl.on_delete_task task tbl = Throw TypeError).
  { intros tbl Hnotin. unfold TaskTableEl.on_delete_task.
    by rewrite findIndex_task, indexOf_absent, at_index_absent. }
  split; [exact Htbl|].
  intros v Hv Hnotin. rewrite delete_click.
  unfold View.model_listener, Model.on_delete_task. simpl.
  unfold View.table_listener. simpl. rewrite Htbl; [done|].
  unfold synced in Hv. by rewrite Hv.
Qed.

Lemma delete_without_row_throws_witness :
  View.onDeleteButtonClick 5%nat (View.new (Model.mk [4; 7; 9]%nat))
  = Throw TypeError.
Proof.
  apply (proj2 (delete_without_row_throws 5%nat) (View.new (Model.mk [4; 7; 9]%nat))).
  - reflexivity.
  - simpl. rewrite list_elem_of_In. simpl. lia.
Defined.

(** ** [formatDuration] tells the whole seconds apart *)

Lemma string_length_app (s1 s2 : string) :
  String.length (s1 +:+ s2) = (String.length s1 + String.length s2)%nat.
Proof. induction s1 as [|c s1 IH]; simpl; [done|]. by rewrite IH. Qed.

Lemma string_app_inj_suffix (s1 s2 t1 t2 : string) :
  String.length t1 = String.length t2 →
  s1 +:+ t1 = s2 +:+ t2 → s1 = s2 ∧ t1 = t2.
Proof.
  intros Hlen. revert s2. induction s1 as [|c s1 IH]; intros [|c' s2] Heq; simpl in Heq.
  - done.
  - apply (f_equal String.length) in Heq.
    rewrite !string_length_app in Heq. simpl in Heq. lia.
  - apply (f_equal String.length) in Heq.
    rewrite !string_length_app in Heq. simpl in Heq. lia.
  - injection Heq as -> Heq. destruct (IH _ Heq) as [-> ->]. done.
Qed.

Lemma String_of_Z_inj (z1 z2 : Z) : String_of_Z z1 = String_of_Z z2 → z1 = z2.
Proof.
  assert (Hback : ∀ z, NilZero.int_of_string (String_of_Z z) = Some (Z.to_int z)).
  { intros z. unfold String_of_Z. apply NilZero.isi.
    - destruct z as [|p|p]; simpl; [discriminate| |discriminate].
      intros [= Hnil]. by apply (DecimalPos.Unsigned.to_uint_nonnil p).
    - destruct z as [|p|p]; simpl; [discriminate|discriminate|].
      intros [= Hnil]. by apply (DecimalPos.Unsigned.to_uint_nonnil p). }
  intros Heq. apply DecimalZ.to_int_inj.
  pose proof (Hback z1) as H1. rewrite Heq, Hback in H1. congruence.
Qed.

Lemma two_digits_inj (a b : Z) :
  0 ≤ a < 60 → 0 ≤ b < 60 → two_digits a = two_digits b → a = b.
Proof.
  intros Ha Hb.
  assert (Hall : Forall (λ x, Forall (λ y, two_digits x = two_digits y → x = y)
                                 (seqZ 0 60)) (seqZ 0 60)).
  { apply (bool_decide_unpack _). vm_compute. exact I. }
  rewrite Forall_forall in Hall. specialize (Hall a).
  rewrite Forall_forall in Hall. apply Hall; apply elem_of_seqZ; lia.
Qed.

(** X17. For non-negative durations below 2^53 the text shown determines
    the whole seconds and nothing more: two durations are rendered alike
    exactly when they have the same number of whole seconds. *)
Theorem formatDuration_same_text_same_seconds (d1 d2 : Z) :
  0 ≤ d1 < 2 ^ 53 → 0 ≤ d2 < 2 ^ 53 →
  (formatDuration d1 = formatDuration d2 ↔ d1 / 1000 = d2 / 1000).
Proof.
  intros Hd1 Hd2. rewrite !formatDuration_render by done. split.
  - unfold render_H_MM_SS.
    set (s1 := d1 / 1000). set (s2 := d2 / 1000).
    assert (0 ≤ s1) by (apply Z.div_pos; lia).
    assert (0 ≤ s2) by (apply Z.div_pos; lia).
    assert (0 ≤ s1 / 60) by (apply Z.div_pos; lia).
    assert (0 ≤ s2 / 60) by (apply Z.div_pos; lia).
    intros Heq. apply string_app_inj_suffix in Heq as [Hh Hrest]; [|reflexivity].
    apply String_of_Z_inj in Hh.
    injection Hrest as Hm1 Hm2 Hs1 Hs2.
    assert (Hm : (s1 / 60) mod 60 = (s2 / 60) mod 60).
    { apply two_digits_inj; [apply Z.mod_pos_bound; lia..|].
      unfold two_digits. by rewrite Hm1, Hm2. }
    assert (Hs : s1 mod 60 = s2 mod 60).
    { apply two_digits_inj; [apply Z.mod_pos_bound; lia..|].
      unfold two_digits. by rewrite Hs1, Hs2. }
    clearbody s1 s2. Z.div_mod_to_equations. lia.
  - by intros ->.
Qed.

Lemma formatDuration_same_text_same_seconds_witness :
  formatDuration 61000 = formatDuration 61999 ↔ 61000 / 1000 = 61999 / 1000.
Proof.
  apply (formatDuration_same_text_same_seconds 61000 61999); lia.
Defined.
